(** * ghfs: a git tree served through the [http.File] interface

    Shallow embedding of package [ghfs].  The package exists in the
    repository in several generations of the same file; the one that
    matches the command in [cmd/main.go] (constructor [FromCommit],
    handles over a tree scanner and a lazily opened blob stream) is
    embedded in module [Ghfs]; the directory reader of the earlier
    generation, which walks the tree by index, is embedded in module
    [GhfsIndexed].

    Conventions.
    - Go's [int64] and [int] are [Z]; additions and subtractions on
      [int64] fields are wrapped to 64 bits ([add64], [sub64]).
    - A [[]byte] buffer handed to [Read] is represented by its length;
      [Read] returns the bytes it stored in the buffer as a list, so the
      Go result [n] is the length of that list.
    - A Go [(value, error)] pair is [result]; a bare [error] is
      [option error] with [None] for [nil].
    - Every operation also returns the list of calls it issued to the
      git library, oldest first, so that statements about what an
      operation does not touch can be written down. *)

From Stdlib Require Import ZArith List String Ascii Bool Lia.
From Stdlib.Strings Require Import Byte.
Import ListNotations.
Open Scope string_scope.
Open Scope list_scope.
Open Scope Z_scope.

(** ** Go values shared by all generations *)

Definition int64_modulus : Z := 2 ^ 64.
Definition int64_max : Z := 2 ^ 63 - 1.
Definition int64_min : Z := - 2 ^ 63.

(** Two's-complement wrap of a mathematical integer into [int64]. *)
Definition wrap64 (z : Z) : Z := (z + 2 ^ 63) mod int64_modulus - 2 ^ 63.
Definition add64 (a b : Z) : Z := wrap64 (a + b).
Definition sub64 (a b : Z) : Z := wrap64 (a - b).

Definition in_int64 (z : Z) : Prop := int64_min <= z <= int64_max.

(** [len] of a slice, as a Go integer. *)
Definition len {A : Type} (l : list A) : Z := Z.of_nat (List.length l).

Inductive error : Type :=
| EOF                          (* io.EOF *)
| Errno (code : Z)             (* syscall.Errno *)
| ErrInvalid                   (* os.ErrInvalid, "invalid argument" *)
| ErrorString (msg : string)   (* errors.New(msg) *)
| LibError (msg : string).     (* an error produced by the git library *)

Definition EISDIR : error := Errno 21.
Definition ENOTDIR : error := Errno 20.

Inductive result (A : Type) : Type :=
| Ok (a : A)
| Err (e : error).
Arguments Ok {A} a.
Arguments Err {A} e.

Definition SEEK_SET : Z := 0.
Definition SEEK_CUR : Z := 1.
Definition SEEK_END : Z := 2.

(** [os.ModeDir] is the top bit of the 32-bit [os.FileMode]. *)
Definition ModeDir : Z := Z.shiftl 1 31.

Definition Time : Type := Z.

(** Calls into the git library, recorded in the order they are made. *)
Inductive StoreCall : Type :=
| CallScanner                          (* Tree.Scanner() *)
| CallGetTreeEntryByPath (name : string)
| CallSubTree (name : string)
| CallBlobData                         (* Blob.Data(): a new stream is opened *)
| CallStreamRead (n : Z)               (* rc.Read delivered n bytes *)
| CallStreamClose.                     (* rc.Close() *)

Definition is_path_lookup (c : StoreCall) : bool :=
  match c with CallGetTreeEntryByPath _ => true | _ => false end.

(** ** The git library, as far as the package uses it *)

Inductive ObjectType : Type := ObjectCommit | ObjectTree | ObjectBlob | ObjectTag.

(** A blob as the store holds it: the bytes a stream over it delivers, the
    largest number of bytes one [Read] of such a stream hands out (streams
    may deliver short reads), the error, if any, that the stream
    reports in place of [io.EOF] once those bytes are out (a damaged
    object), and the error, if any, that closing the stream reports when
    so many of its bytes are still unread (a stream closed early may
    complain). *)
Record Blob : Type := mkBlob {
  blob_bytes : list byte;
  blob_chunk : positive;
  blob_fault : option error;
  blob_closing : nat -> option error }.

(** The forward-only stream returned by [Blob.Data()]. *)
Record ReadCloser : Type := mkReadCloser {
  pending : list byte;
  chunk : positive;
  broken : option error;
  closing : nat -> option error }.

(** What the stream reports when it has nothing more to deliver. *)
Definition rc_end (r : ReadCloser) : error :=
  match broken r with
  | Some x => x
  | None => EOF
  end.

(** [rc.Read(buf)] with [len(buf) = n]: when nothing is left it reports
    its end with no bytes; before that it delivers the next
    [min n chunk] bytes (fewer when fewer remain) and no error. *)
Definition rc_Read (n : Z) (r : ReadCloser) : list byte * option error * ReadCloser :=
  match pending r with
  | [] => ([], Some (rc_end r), r)
  | _ :: _ =>
      let k := Z.to_nat (Z.min n (Z.pos (chunk r))) in
      (firstn k (pending r), None,
       {| pending := skipn k (pending r); chunk := chunk r; broken := broken r;
          closing := closing r |})
  end.

(** [rc.Close()]: the stream's own answer. *)
Definition rc_Close (r : ReadCloser) : option error :=
  closing r (List.length (pending r)).

(** A [*g.TreeEntry], with what its methods answer. *)
Record TreeEntry : Type := mkTreeEntry {
  Name : string;
  EntryType : ObjectType;         (* the field Type *)
  Size : Z;                       (* Size(): the declared size *)
  ModTime : Time;                 (* ModTime() *)
  entry_blob : result Blob }.     (* what Blob().Data() will find *)

(** [entry.Blob().Data()] *)
Definition Blob_Data (e : TreeEntry) : result ReadCloser :=
  match entry_blob e with
  | Ok b => Ok {| pending := blob_bytes b; chunk := blob_chunk b;
                  broken := blob_fault b; closing := blob_closing b |}
  | Err x => Err x
  end.

#[local] Set Warnings "-register-all".
Inductive Tree : Type := mkTree {
  tree_entries : result (list TreeEntry);   (* what a scanner will find *)
  tree_scan_fault : option error;           (* error met after the last entry *)
  GetTreeEntryByPath : string -> result TreeEntry;
  SubTree : string -> result Tree }.

(** [g.TreeScanner]: [Scan] advances to the next entry and [TreeEntry]
    returns it; once [Scan] has reported false, [Err] tells why. *)
Record TreeScanner : Type := mkTreeScanner {
  rest : list TreeEntry;
  stopped : bool;
  fault : option error }.

Definition Tree_Scanner (t : Tree) : result TreeScanner :=
  match tree_entries t with
  | Ok es => Ok {| rest := es; stopped := false; fault := tree_scan_fault t |}
  | Err x => Err x
  end.

(** [Scan()] followed by [TreeEntry()]: the entry just scanned, or [None]
    when [Scan()] reports false. *)
Definition Scan (s : TreeScanner) : option TreeEntry * TreeScanner :=
  match rest s with
  | [] => (None, {| rest := []; stopped := true; fault := fault s |})
  | e :: es => (Some e, {| rest := es; stopped := false; fault := fault s |})
  end.

Definition Scanner_Err (s : TreeScanner) : option error :=
  if stopped s then fault s else None.

Record Commit : Type := mkCommit {
  Author_When : Time;
  Commit_Tree : Tree }.

(** ** The current generation: handles over a scanner and a blob stream *)

Module Ghfs.

(** The [os.FileInfo] values the package hands out: the synthetic root,
    an entry with the commit's time, and a bare [*g.TreeEntry] as
    [Readdir] returns it. *)
Inductive FileInfo : Type :=
| rootFileInfo
| modTimeFileInfo (e : TreeEntry) (modTime : Time)
| entryFileInfo (e : TreeEntry).

(** The library's [IsDir]: an entry is a directory when it names a tree. *)
Definition TreeEntry_IsDir (e : TreeEntry) : bool :=
  match EntryType e with ObjectTree => true | _ => false end.

Definition FileInfo_Name (fi : FileInfo) : string :=
  match fi with
  | rootFileInfo => EmptyString
  | modTimeFileInfo e _ => Name e
  | entryFileInfo e => Name e
  end.

Definition FileInfo_Size (fi : FileInfo) : Z :=
  match fi with
  | rootFileInfo => 0
  | modTimeFileInfo e _ => Size e
  | entryFileInfo e => Size e
  end.

Definition FileInfo_IsDir (fi : FileInfo) : bool :=
  match fi with
  | rootFileInfo => true
  | modTimeFileInfo e _ => TreeEntry_IsDir e
  | entryFileInfo e => TreeEntry_IsDir e
  end.

(** [rootFileInfo.Mode]: [os.ModeDir | 0755]. *)
Definition rootFileInfo_Mode : Z := Z.lor ModeDir 493.

(** [ModTime], given the clock reading [now] for the synthetic root. *)
Definition FileInfo_ModTime (now : Time) (fi : FileInfo) : Time :=
  match fi with
  | rootFileInfo => now
  | modTimeFileInfo _ t => t
  | entryFileInfo e => ModTime e
  end.

Record ghfsDir : Type := mkDir {
  d_tree : Tree;
  d_fi : FileInfo;
  d_scanner : TreeScanner }.

Record ghfsFile : Type := mkFile {
  entry : TreeEntry;
  fi : FileInfo;
  rc : option ReadCloser;      (* nil until the first Read *)
  off : Z;
  atEnd : bool }.

(** An [http.File] is one of the two handles. *)
Inductive File : Type :=
| DirHandle (d : ghfsDir)
| FileHandle (f : ghfsFile).

(** *** Directory handles *)

Definition NewDir (t : Tree) (i : FileInfo) : result File * list StoreCall :=
  match Tree_Scanner t with
  | Err e => (Err e, [CallScanner])
  | Ok sc => (Ok (DirHandle {| d_tree := t; d_fi := i; d_scanner := sc |}), [CallScanner])
  end.

Definition ghfsDir_Read (buf : Z) (d : ghfsDir) : list byte * option error * ghfsDir :=
  ([], Some EOF, d).

Definition ghfsDir_Close (d : ghfsDir) : option error * ghfsDir := (None, d).

(** The loop of [Readdir]: [c] counts the iterations still allowed. *)
Fixpoint Readdir_loop (c : nat) (sc : TreeScanner) (ret : list FileInfo)
  : list FileInfo * TreeScanner :=
  match c with
  | O => (ret, sc)
  | S c' =>
      match Scan sc with
      | (None, sc') => (ret, sc')
      | (Some e, sc') => Readdir_loop c' sc' (ret ++ [entryFileInfo e])
      end
  end.

Definition ghfsDir_Readdir (count : Z) (d : ghfsDir)
  : list FileInfo * option error * ghfsDir :=
  let '(ret, sc) := Readdir_loop (Z.to_nat count) (d_scanner d) [] in
  let d' := {| d_tree := d_tree d; d_fi := d_fi d; d_scanner := sc |} in
  match Scanner_Err sc with
  | Some e => (ret, Some e, d')
  | None => (ret, None, d')
  end.

Definition ghfsDir_Seek (offset whence : Z) (d : ghfsDir) : Z * option error * ghfsDir :=
  (0, Some EISDIR, d).

Definition ghfsDir_Stat (d : ghfsDir) : FileInfo * option error := (d_fi d, None).

(** *** File handles *)

Definition NewFile (e : TreeEntry) (i : FileInfo) : result File :=
  Ok (FileHandle {| entry := e; fi := i; rc := None; off := 0; atEnd := false |}).

(** The outcome of an operation on a file handle: its Go results, the
    handle afterwards and the library calls made. *)
Definition ReadOut : Type := list byte * option error * ghfsFile * list StoreCall.
Definition SeekOut : Type := Z * option error * ghfsFile * list StoreCall.

Definition with_rc (f : ghfsFile) (r : option ReadCloser) : ghfsFile :=
  {| entry := entry f; fi := fi f; rc := r; off := off f; atEnd := atEnd f |}.
Definition with_off (f : ghfsFile) (o : Z) : ghfsFile :=
  {| entry := entry f; fi := fi f; rc := rc f; off := o; atEnd := atEnd f |}.
Definition with_atEnd (f : ghfsFile) (b : bool) : ghfsFile :=
  {| entry := entry f; fi := fi f; rc := rc f; off := off f; atEnd := b |}.

(** The rest of [Read], once the handle has its stream [r] in hand (the
    one it had, or the one just opened): the at-end test and the read of
    the stream; [cs] are the calls so far. *)
Definition Read_opened (buf : Z) (f : ghfsFile) (r : ReadCloser)
    (cs : list StoreCall) : ReadOut :=
  if atEnd f then ([], Some EOF, with_rc f (Some r), cs)
  else
    let '(data, e, r') := rc_Read buf r in
    (data, e, with_off (with_rc f (Some r')) (add64 (off f) (len data)),
     cs ++ [CallStreamRead (len data)]).

Definition ghfsFile_Read (buf : Z) (f : ghfsFile) : ReadOut :=
  match rc f with
  | None =>
      match Blob_Data (entry f) with
      | Err e => ([], Some e, f, [CallBlobData])
      | Ok r => Read_opened buf f r [CallBlobData]
      end
  | Some r => Read_opened buf f r []
  end.

Definition ghfsFile_Close (f : ghfsFile) : option error * ghfsFile * list StoreCall :=
  let '(ret, f1, cs) :=
    match rc f with
    | Some r => (rc_Close r, with_rc f None, [CallStreamClose])
    | None => (None, f, [])
    end in
  (ret, with_off f1 0, cs).

Definition ghfsFile_Readdir (count : Z) (f : ghfsFile)
  : list FileInfo * option error * ghfsFile :=
  ([], Some ErrInvalid, f).

Definition ghfsFile_Stat (f : ghfsFile) : FileInfo * option error := (fi f, None).

(** *** [io.CopyN(ioutil.Discard, f, n)]

    [io.CopyN] wraps the handle in an [io.LimitedReader] and [io.Copy]
    hands that reader to [ioutil.Discard.ReadFrom], which reads into a
    buffer of [blackHoleSize] bytes until the reader reports an error. *)

Definition blackHoleSize : Z := 8192.

(** [LimitedReader.Read(p)] with [N] bytes still allowed. *)
Definition LimitedReader_Read (p N : Z) (f : ghfsFile)
  : list byte * option error * Z * ghfsFile * list StoreCall :=
  if N <=? 0 then ([], Some EOF, N, f, [])
  else
    let p' := if p >? N then N else p in
    let '(data, e, f', cs) := ghfsFile_Read p' f in
    (data, e, N - len data, f', cs).

(** The loop of [Discard.ReadFrom]; [n] is the count so far, [cs] the
    calls so far.  [fuel] bounds the iterations: [None] means the bound
    was too small. *)
Fixpoint Discard_ReadFrom (fuel : nat) (N : Z) (f : ghfsFile) (n : Z)
    (cs : list StoreCall) : option SeekOut :=
  match fuel with
  | O => None
  | S fuel' =>
      let '(data, e, N', f', cs') := LimitedReader_Read blackHoleSize N f in
      let n' := n + len data in
      match e with
      | Some EOF => Some (n', None, f', cs ++ cs')
      | Some x => Some (n', Some x, f', cs ++ cs')
      | None => Discard_ReadFrom fuel' N' f' n' (cs ++ cs')
      end
  end.

(** Every iteration that does not end the loop consumes at least one of
    the [n] bytes allowed, so [n + 1] iterations are enough. *)
Definition CopyN_Discard (f : ghfsFile) (n : Z) : option SeekOut :=
  match Discard_ReadFrom (S (Z.to_nat n)) n f 0 [] with
  | None => None
  | Some (written, e, f', cs) =>
      if written =? n then Some (n, None, f', cs)
      else
        match e with
        | None => if written <? n then Some (written, Some EOF, f', cs)
                  else Some (written, None, f', cs)
        | Some x => Some (written, Some x, f', cs)
        end
  end.

(** The second [switch] of [Seek], entered with the target [noff]. *)
Definition Seek_to (noff : Z) (f : ghfsFile) : option SeekOut :=
  let f0 := with_atEnd f false in
  if noff <? 0 then Some (0, Some (ErrorString "Invalid offset"), f0, [])
  else if noff <? off f0 then
    let '(_, f1, cs1) := ghfsFile_Close f0 in
    match CopyN_Discard f1 noff with
    | None => None
    | Some (n, e, f2, cs2) => Some (n, e, f2, cs1 ++ cs2)
    end
  else
    match CopyN_Discard f0 (sub64 noff (off f0)) with
    | None => None
    | Some (_, e, f2, cs2) => Some (off f2, e, f2, cs2)
    end.

Definition ghfsFile_Seek (offset whence : Z) (f : ghfsFile) : option SeekOut :=
  let whence := if (whence =? SEEK_CUR) && atEnd f then SEEK_END else whence in
  if whence =? SEEK_SET then Seek_to offset f
  else if whence =? SEEK_CUR then Seek_to (add64 (off f) offset) f
  else if whence =? SEEK_END then
    if offset =? 0 then Some (Size (entry f), None, with_atEnd f true, [])
    else Seek_to (add64 (Size (entry f)) offset) f
  else Some (0, Some (ErrorString "Invalid argument for whence"), f, []).

(** *** The file system *)

Record ghfs : Type := mkGhfs {
  fs_commit : Commit;
  fs_tree : Tree }.

(** [FromCommit(commit, tree...)]: the commit's tree unless a subtree is given. *)
Definition FromCommit (commit : Commit) (tree : list Tree) : ghfs :=
  match tree with
  | [] => {| fs_commit := commit; fs_tree := Commit_Tree commit |}
  | t :: _ => {| fs_commit := commit; fs_tree := t |}
  end.

(** [if strings.HasPrefix(name, "/") { name = name[1:] }] *)
Definition trim_slash (name : string) : string :=
  match name with
  | String "/"%char tl => tl
  | _ => name
  end.

Definition Open (fs : ghfs) (name : string) : result File * list StoreCall :=
  let name := trim_slash name in
  if String.eqb name EmptyString then NewDir (fs_tree fs) rootFileInfo
  else
    match GetTreeEntryByPath (fs_tree fs) name with
    | Err e => (Err e, [CallGetTreeEntryByPath name])
    | Ok entry =>
        let fi := modTimeFileInfo entry (Author_When (fs_commit fs)) in
        match EntryType entry with
        | ObjectTree =>
            match SubTree (fs_tree fs) name with
            | Err e => (Err e, [CallGetTreeEntryByPath name; CallSubTree name])
            | Ok stree =>
                let '(r, cs) := NewDir stree fi in
                (r, [CallGetTreeEntryByPath name; CallSubTree name] ++ cs)
            end
        | ObjectBlob => (NewFile entry fi, [CallGetTreeEntryByPath name])
        | _ => (Err (ErrorString "Invalid type"), [CallGetTreeEntryByPath name])
        end
    end.

End Ghfs.

(** ** The earlier generation: a directory reader that walks by index *)

Module GhfsIndexed.

Definition Oid : Type := Z.

Inductive Filemode : Type :=
| FilemodeTree | FilemodeBlob | FilemodeBlobExecutable | FilemodeLink | FilemodeCommit.

Record TreeEntry : Type := mkTreeEntry {
  Name : string;
  Id : Oid;
  Type_ : ObjectType;
  Filemode_ : Filemode }.

(** A tree with its owner's blob lookup, which yields the blob's size. *)
Record Tree : Type := mkTree {
  entries : list TreeEntry;
  LookupBlob : Oid -> result Z }.

Definition EntryCount (t : Tree) : Z := len (entries t).
Definition EntryByIndex (t : Tree) (idx : Z) : option TreeEntry :=
  if idx <? 0 then None else nth_error (entries t) (Z.to_nat idx).

Record ghfsFileInfo : Type := mkFileInfo {
  name : string;
  mode : Z;
  size : Z }.

Definition NewFileInfo (t : Tree) (e : TreeEntry) : ghfsFileInfo :=
  match Filemode_ e with
  | FilemodeTree => {| name := Name e; mode := ModeDir; size := 0 |}
  | _ =>
      match LookupBlob t (Id e) with
      | Ok sz => {| name := Name e; mode := 0; size := sz |}
      | Err _ => {| name := Name e; mode := 0; size := 0 |}
      end
  end.

Record ghfsDir : Type := mkDir {
  tree : Tree;
  fi : ghfsFileInfo;
  idx : Z }.

(** The loop of [Readdir]; [None] when the iteration bound [fuel] is too
    small or [EntryByIndex] has no entry to hand to [NewFileInfo]. *)
Fixpoint Readdir_loop (fuel : nat) (count : Z) (t : Tree) (i : Z)
    (ret : list ghfsFileInfo) : option (list ghfsFileInfo * Z) :=
  match fuel with
  | O => None
  | S fuel' =>
      if i <? EntryCount t then
        if (count >? 0) && (len ret >=? count) then Some (ret, i)
        else
          match EntryByIndex t i with
          | None => None
          | Some e => Readdir_loop fuel' count t (i + 1) (ret ++ [NewFileInfo t e])
          end
      else Some (ret, i)
  end.

(** One iteration per remaining entry, and one more to see the end. *)
Definition ghfsDir_Readdir (count : Z) (d : ghfsDir)
  : option (list ghfsFileInfo * option error * ghfsDir) :=
  if idx d >=? EntryCount (tree d) then Some ([], Some EOF, d)
  else
    match Readdir_loop (S (Z.to_nat (EntryCount (tree d) - idx d))) count
                       (tree d) (idx d) [] with
    | None => None
    | Some (ret, i) => Some (ret, None, {| tree := tree d; fi := fi d; idx := i |})
    end.

End GhfsIndexed.

(** ** Notions used to state the properties of file handles *)

Module GhfsSpec.
Import Ghfs.

(** The bytes the next reads of a handle will deliver: what is left on the
    open stream, or the whole blob when no stream is open yet. *)
Definition upcoming (f : ghfsFile) : result (list byte) :=
  match rc f with
  | Some r => Ok (pending r)
  | None =>
      match entry_blob (entry f) with
      | Ok b => Ok (blob_bytes b)
      | Err x => Err x
      end
  end.

(** The stream a read works on: the handle's own, or a new one on its blob. *)
Definition stream_of (f : ghfsFile) (r : ReadCloser) : Prop :=
  rc f = Some r \/ (rc f = None /\ Blob_Data (entry f) = Ok r).

(** The stream that the next reads use ends with [io.EOF], not with an
    error of the store. *)
Definition sound (f : ghfsFile) : Prop :=
  match rc f with
  | Some r => broken r = None
  | None =>
      match entry_blob (entry f) with
      | Ok b => blob_fault b = None
      | Err _ => True
      end
  end.

(** The errors the store can raise through a handle: its refusal to open
    the blob, and the fault of a damaged blob or of the open stream. *)
Definition store_error (f : ghfsFile) (x : error) : Prop :=
  entry_blob (entry f) = Err x \/
  (exists b, entry_blob (entry f) = Ok b /\ blob_fault b = Some x) \/
  (exists r, rc f = Some r /\ broken r = Some x).

(** A handle over a readable, undamaged blob with bytes [data] whose
    stream, if any, stands at [off]. *)
Definition positioned (data : list byte) (f : ghfsFile) : Prop :=
  (exists b, entry_blob (entry f) = Ok b /\ blob_bytes b = data /\
             blob_fault b = None) /\
  len data <= int64_max /\
  0 <= off f <= len data /\
  upcoming f = Ok (skipn (Z.to_nat (off f)) data) /\
  sound f.

(** The handle [NewFile] builds. *)
Definition fresh (e : TreeEntry) (i : FileInfo) : ghfsFile :=
  {| entry := e; fi := i; rc := None; off := 0; atEnd := false |}.

(** A caller that reads with a buffer of [buf] bytes until [Read] reports
    an error, collecting what it is given (as [ioutil.ReadAll] does);
    [io.EOF] ends the loop without being reported.  [None] when the
    iteration bound [fuel] is too small. *)
Fixpoint read_all (fuel : nat) (buf : Z) (f : ghfsFile) (acc : list byte)
  : option (list byte * option error * ghfsFile) :=
  match fuel with
  | O => None
  | S fuel' =>
      let '(data, e, f', _) := ghfsFile_Read buf f in
      match e with
      | Some EOF => Some (acc ++ data, None, f')
      | Some x => Some (acc ++ data, Some x, f')
      | None => read_all fuel' buf f' (acc ++ data)
      end
  end.

(** The target offset of a seek: [offset] from the start, from the
    current offset (from the end once the handle is at its end), or from
    the end; [None] for any other [whence]. *)
Definition seek_target (f : ghfsFile) (offset whence : Z) : option Z :=
  if whence =? SEEK_SET then Some offset
  else if whence =? SEEK_CUR then
    Some (if atEnd f then add64 (Size (entry f)) offset else add64 (off f) offset)
  else if whence =? SEEK_END then Some (add64 (Size (entry f)) offset)
  else None.

(** The handle left by a close before a backward seek replays the stream. *)
Definition unopened (f : ghfsFile) : ghfsFile :=
  {| entry := entry f; fi := fi f; rc := None; off := 0; atEnd := false |}.

End GhfsSpec.

(** ** A small snapshot: [/a.txt] holding [abcd] and [/dir/b.txt] holding [x] *)

Module Samples.
Import Ghfs GhfsSpec.

Definition abcd : list byte := [x61; x62; x63; x64].

Definition a_txt : TreeEntry :=
  {| Name := "a.txt"; EntryType := ObjectBlob; Size := 4; ModTime := 0;
     entry_blob := Ok {| blob_bytes := abcd; blob_chunk := 3; blob_fault := None;
                     blob_closing := fun _ => None |} |}.

Definition b_txt : TreeEntry :=
  {| Name := "b.txt"; EntryType := ObjectBlob; Size := 1; ModTime := 0;
     entry_blob := Ok {| blob_bytes := [x78]; blob_chunk := 1; blob_fault := None;
                     blob_closing := fun _ => None |} |}.

Definition dir : TreeEntry :=
  {| Name := "dir"; EntryType := ObjectTree; Size := 0; ModTime := 0;
     entry_blob := Err (LibError "not a blob") |}.

(** A blob whose stream breaks after its first byte. *)
Definition damaged : TreeEntry :=
  {| Name := "damaged"; EntryType := ObjectBlob; Size := 4; ModTime := 0;
     entry_blob := Ok {| blob_bytes := [x61]; blob_chunk := 3;
                         blob_fault := Some (LibError "unexpected end of object");
                         blob_closing := fun _ => None |} |}.

(** A blob whose stream complains when it is closed before its last byte
    has been read. *)
Definition hasty : TreeEntry :=
  {| Name := "hasty"; EntryType := ObjectBlob; Size := 2; ModTime := 0;
     entry_blob := Ok {| blob_bytes := [x61; x62]; blob_chunk := 1;
                         blob_fault := None;
                         blob_closing := fun n =>
                           match n with
                           | O => None
                           | S _ => Some (LibError "closed before the end")
                           end |} |}.

Definition not_found {A : Type} : result A := Err (LibError "entry not found").

(** A snapshot whose root tree the store cannot scan. *)
Definition unscannable_tree : Tree :=
  {| tree_entries := Err (LibError "object not found"); tree_scan_fault := None;
     GetTreeEntryByPath := fun _ => not_found;
     SubTree := fun _ => not_found |}.

Definition unscannable_fs : ghfs :=
  FromCommit {| Author_When := 1430000000; Commit_Tree := unscannable_tree |} [].

Definition dir_tree : Tree :=
  {| tree_entries := Ok [b_txt]; tree_scan_fault := None;
     GetTreeEntryByPath := fun n => if String.eqb n "b.txt" then Ok b_txt else not_found;
     SubTree := fun _ => not_found |}.

Definition root_tree : Tree :=
  {| tree_entries := Ok [a_txt; dir]; tree_scan_fault := None;
     GetTreeEntryByPath := fun n =>
       if String.eqb n "a.txt" then Ok a_txt
       else if String.eqb n "dir" then Ok dir
       else if String.eqb n "dir/b.txt" then Ok b_txt
       else not_found;
     SubTree := fun n => if String.eqb n "dir" then Ok dir_tree else not_found |}.

Definition commit : Commit := {| Author_When := 1430000000; Commit_Tree := root_tree |}.

Definition fs : ghfs := FromCommit commit [].

(** The handle [Open] returns for [/a.txt]. *)
Definition a_handle : ghfsFile := fresh a_txt (modTimeFileInfo a_txt 1430000000).

(** The same handle after [Seek(0, SEEK_END)]. *)
Definition a_at_end : ghfsFile := with_atEnd a_handle true.

(** The same handle after one [Read] into a buffer of three bytes. *)
Definition a_after_read : ghfsFile :=
  {| entry := a_txt; fi := modTimeFileInfo a_txt 1430000000;
     rc := Some {| pending := [x64]; chunk := 3; broken := None;
                closing := fun _ => None |}; off := 3;
     atEnd := false |}.

(** The handle [Open] returns for [/dir], and the same handle once its one
    entry has been read. *)
Definition dir_handle : ghfsDir :=
  {| d_tree := dir_tree; d_fi := modTimeFileInfo dir 1430000000;
     d_scanner := {| rest := [b_txt]; stopped := false; fault := None |} |}.

Definition dir_handle_drained : ghfsDir :=
  {| d_tree := dir_tree; d_fi := modTimeFileInfo dir 1430000000;
     d_scanner := {| rest := []; stopped := false; fault := None |} |}.

(** The directory of the earlier generation with the same single entry. *)
Definition indexed_dir : GhfsIndexed.ghfsDir :=
  {| GhfsIndexed.tree :=
       {| GhfsIndexed.entries :=
            [ {| GhfsIndexed.Name := "b.txt"; GhfsIndexed.Id := 7;
                 GhfsIndexed.Type_ := ObjectBlob;
                 GhfsIndexed.Filemode_ := GhfsIndexed.FilemodeBlob |} ];
          GhfsIndexed.LookupBlob := fun _ => Ok 1 |};
     GhfsIndexed.fi := {| GhfsIndexed.name := "dir"; GhfsIndexed.mode := ModeDir;
                          GhfsIndexed.size := 0 |};
     GhfsIndexed.idx := 0 |}.

(** The same directory once its entry has been returned. *)
Definition indexed_dir_at_end : GhfsIndexed.ghfsDir :=
  {| GhfsIndexed.tree := GhfsIndexed.tree indexed_dir;
     GhfsIndexed.fi := GhfsIndexed.fi indexed_dir;
     GhfsIndexed.idx := 1 |}.

End Samples.

(** ** Notions used to state further properties *)

Module GhfsUse.
Import Ghfs GhfsSpec.

(** The bytes that the calls [cs] pulled off blob streams. *)
Fixpoint bytes_pulled (cs : list StoreCall) : Z :=
  match cs with
  | [] => 0
  | CallStreamRead n :: t => n + bytes_pulled t
  | _ :: t => bytes_pulled t
  end.

Definition is_blob_open (c : StoreCall) : bool :=
  match c with CallBlobData => true | _ => false end.
Definition is_stream_close (c : StoreCall) : bool :=
  match c with CallStreamClose => true | _ => false end.
Definition is_stream_call (c : StoreCall) : bool :=
  match c with
  | CallBlobData | CallStreamRead _ | CallStreamClose => true
  | _ => false
  end.

(** How often the calls [cs] open a blob stream, and close one. *)
Definition opens (cs : list StoreCall) : nat := List.length (filter is_blob_open cs).
Definition closes (cs : list StoreCall) : nat := List.length (filter is_stream_close cs).

(** What a caller can do with a file handle, and the handle each call
    leaves; [None] when a call does not return. *)
Inductive FileCall : Type :=
| DoRead (buf : Z)
| DoSeek (offset whence : Z)
| DoClose.

Definition do_call (c : FileCall) (f : ghfsFile) : option ghfsFile :=
  match c with
  | DoRead buf => let '(_, _, f', _) := ghfsFile_Read buf f in Some f'
  | DoSeek offset whence =>
      match ghfsFile_Seek offset whence f with
      | Some (_, _, f', _) => Some f'
      | None => None
      end
  | DoClose => let '(_, f', _) := ghfsFile_Close f in Some f'
  end.

Fixpoint do_calls (cs : list FileCall) (f : ghfsFile) : option ghfsFile :=
  match cs with
  | [] => Some f
  | c :: t =>
      match do_call c f with
      | Some f' => do_calls t f'
      | None => None
      end
  end.

(** Arguments a Go caller can pass: a buffer has a length, an offset is
    an [int64]. *)
Definition call_ok (c : FileCall) : Prop :=
  match c with
  | DoRead buf => 0 <= buf
  | DoSeek offset _ => in_int64 offset
  | DoClose => True
  end.

(** What the stream a read works on reports once its bytes are out. *)
Definition stream_end (f : ghfsFile) : error :=
  match rc f with
  | Some r => rc_end r
  | None =>
      match entry_blob (entry f) with
      | Ok b => match blob_fault b with Some x => x | None => EOF end
      | Err x => x
      end
  end.

(** The bytes a handle can still deliver by reading on: none when its
    blob cannot be opened. *)
Definition remaining (f : ghfsFile) : list byte :=
  match upcoming f with
  | Ok p => p
  | Err _ => []
  end.

(** The offset at which reading on comes to the end of the stream. *)
Definition reach (f : ghfsFile) : Z := off f + len (remaining f).

(** The handle a seek to [noff] skips forward from: the handle closed,
    unopened at offset 0, when the target lies before the offset, and the
    handle itself otherwise. *)
Definition seek_from (noff : Z) (f : ghfsFile) : ghfsFile :=
  if noff <? off f then unopened f else with_atEnd f false.


(** The error a loop that reads until an error hands to its caller: nil
    for [io.EOF]. *)
Definition reported (x : error) : option error :=
  match x with
  | EOF => None
  | _ => Some x
  end.

(** [Stat] through the [http.File] interface. *)
Definition File_Stat (h : File) : FileInfo * option error :=
  match h with
  | DirHandle d => ghfsDir_Stat d
  | FileHandle f => ghfsFile_Stat f
  end.

(** [strings.HasPrefix(name, "/")] *)
Definition has_slash_prefix (name : string) : bool :=
  match name with
  | String "/"%char _ => true
  | _ => false
  end.

End GhfsUse.

(** ** The metadata of the earlier generation *)

Module GhfsIndexedInfo.
Import GhfsIndexed.

(** [os.FileMode.IsDir]: [m&ModeDir != 0] *)
Definition FileMode_IsDir (m : Z) : bool := negb (Z.land m ModeDir =? 0).

Definition ghfsFileInfo_Name (i : ghfsFileInfo) : string := name i.
Definition ghfsFileInfo_Size (i : ghfsFileInfo) : Z := size i.
Definition ghfsFileInfo_Mode (i : ghfsFileInfo) : Z := mode i.
Definition ghfsFileInfo_IsDir (i : ghfsFileInfo) : bool :=
  FileMode_IsDir (ghfsFileInfo_Mode i).

(** The number of entries a [Readdir] at index [i] of [n] entries takes. *)
Definition page_size (count i n : Z) : Z :=
  if count >? 0 then Z.min count (n - i) else n - i.

End GhfsIndexedInfo.

(** * Properties *)

Import Ghfs GhfsSpec GhfsUse Samples.

(** ** 64-bit arithmetic and lengths *)

(** Goals about the [int64] range, by unfolding the bounds. *)
Ltac int64_lia :=
  unfold in_int64, int64_min, int64_max, int64_modulus in *; lia.

Lemma wrap64_id (z : Z) : in_int64 z -> wrap64 z = z.
Proof.
  unfold wrap64. intros H.
  rewrite Z.mod_small; int64_lia.
Qed.

Lemma wrap64_range (z : Z) : in_int64 (wrap64 z).
Proof.
  unfold wrap64.
  pose proof (Z.mod_pos_bound (z + 2 ^ 63) int64_modulus). int64_lia.
Qed.

Lemma wrap64_add_l (a b : Z) : wrap64 (wrap64 a + b) = wrap64 (a + b).
Proof.
  unfold wrap64.
  replace ((a + 2 ^ 63) mod int64_modulus - 2 ^ 63 + b + 2 ^ 63)
    with ((a + 2 ^ 63) mod int64_modulus + b) by lia.
  rewrite Zplus_mod_idemp_l. f_equal. f_equal. lia.
Qed.

Lemma len_nonneg {A : Type} (l : list A) : 0 <= len l.
Proof. unfold len. lia. Qed.

Lemma len_firstn {A : Type} (k : nat) (l : list A) :
  len (firstn k l) = Z.min (Z.of_nat k) (len l).
Proof. unfold len. rewrite length_firstn. lia. Qed.

Lemma len_skipn {A : Type} (k : nat) (l : list A) :
  len (skipn k l) = len l - Z.min (Z.of_nat k) (len l).
Proof. unfold len. rewrite length_skipn. lia. Qed.

Lemma len_app {A : Type} (l1 l2 : list A) : len (l1 ++ l2) = len l1 + len l2.
Proof. unfold len. rewrite length_app. lia. Qed.

Lemma len_pos {A : Type} (l : list A) : l <> [] -> 1 <= len l.
Proof. unfold len. destruct l; [congruence | simpl; lia]. Qed.

Lemma skipn_app_exact {A : Type} (c rest : list A) (N : Z) :
  len c = N -> skipn (Z.to_nat N) (c ++ rest) = rest.
Proof.
  unfold len. intros <-. rewrite Nat2Z.id.
  rewrite skipn_app, skipn_all, Nat.sub_diag. reflexivity.
Qed.

Lemma skipn_len_split {A : Type} (data rest c : list A) (o : Z) :
  0 <= o -> skipn (Z.to_nat o) data = c ++ rest ->
  skipn (Z.to_nat (o + len c)) data = rest.
Proof.
  intros Ho H. unfold len. rewrite Z2Nat.inj_add, Nat2Z.id by lia.
  rewrite Nat.add_comm, <- skipn_skipn, H.
  rewrite skipn_app, skipn_all, Nat.sub_diag. reflexivity.
Qed.

(** ** One read *)

(** What one [Read] of the stream does. *)
Lemma rc_Read_spec (n : Z) (r : ReadCloser) :
  (pending r = [] /\ rc_Read n r = ([], Some (rc_end r), r)) \/
  (pending r <> [] /\
   let k := Z.to_nat (Z.min n (Z.pos (chunk r))) in
   rc_Read n r = (firstn k (pending r), None,
                  {| pending := skipn k (pending r); chunk := chunk r;
                     broken := broken r; closing := closing r |})).
Proof.
  unfold rc_Read. destruct (pending r) eqn:E.
  - left. split; reflexivity.
  - right. split; [discriminate | reflexivity].
Qed.

(** The end of a stream is [io.EOF] or the stream's fault. *)
Lemma rc_end_cases (r : ReadCloser) :
  rc_end r = EOF \/ exists x, broken r = Some x /\ rc_end r = x.
Proof.
  unfold rc_end. destruct (broken r) as [x|]; [right; exists x | left]; auto.
Qed.

(** The outcome of [Read] once the stream is in hand. *)
Lemma Read_opened_spec (buf : Z) (f : ghfsFile) (r : ReadCloser) (c0 : list StoreCall) :
  (atEnd f = true /\
   Read_opened buf f r c0 = ([], Some EOF, with_rc f (Some r), c0)) \/
  (atEnd f = false /\ pending r = [] /\
   Read_opened buf f r c0 =
     ([], Some (rc_end r), with_off (with_rc f (Some r)) (add64 (off f) 0),
      c0 ++ [CallStreamRead 0])) \/
  (atEnd f = false /\ pending r <> [] /\
   let k := Z.to_nat (Z.min buf (Z.pos (chunk r))) in
   let data := firstn k (pending r) in
   Read_opened buf f r c0 =
     (data, None,
      with_off (with_rc f (Some {| pending := skipn k (pending r);
                                    chunk := chunk r; broken := broken r;
                                   closing := closing r |}))
               (add64 (off f) (len data)),
      c0 ++ [CallStreamRead (len data)])).
Proof.
  unfold Read_opened. destruct (atEnd f).
  - left. split; reflexivity.
  - right. destruct (rc_Read_spec buf r) as [[Hp Hr] | [Hp Hr]];
      cbv zeta in Hr; rewrite Hr; [left | right]; repeat split; assumption.
Qed.

Lemma ghfsFile_Read_cases (buf : Z) (f : ghfsFile) :
  (exists x, rc f = None /\ entry_blob (entry f) = Err x /\
             ghfsFile_Read buf f = ([], Some x, f, [CallBlobData])) \/
  (exists r c0, stream_of f r /\ ghfsFile_Read buf f = Read_opened buf f r c0).
Proof.
  unfold ghfsFile_Read, stream_of.
  destruct (rc f) as [r|] eqn:Er.
  - right. exists r, []. auto.
  - unfold Blob_Data. destruct (entry_blob (entry f)) as [b|x] eqn:Eb.
    + right. eexists; eexists. split; [right; split; reflexivity | reflexivity].
    + left. exists x. auto.
Qed.

(** A handle that differs from [f] by the position of the stream in hand
    can raise no store error that [f] could not. *)
Lemma store_error_back (f f' : ghfsFile) (r : ReadCloser) :
  stream_of f r -> entry f' = entry f ->
  (forall r', rc f' = Some r' -> broken r' = broken r) ->
  forall x, store_error f' x -> store_error f x.
Proof.
  intros Hs He Hrc x [H | [(b & Hb & Hx) | (r' & Hr' & Hx)]].
  - left. congruence.
  - right; left. exists b. split; congruence.
  - rewrite (Hrc r' Hr') in Hx.
    destruct Hs as [Hs | [Hn Hs]].
    + right; right. exists r. auto.
    + right; left. unfold Blob_Data in Hs.
      destruct (entry_blob (entry f)) as [b|y]; [| discriminate].
      inversion Hs; subst. exists b. auto.
Qed.

(** What any [Read] of a file handle leaves alone, and what it may report. *)
Lemma Read_frame (buf : Z) (f : ghfsFile) data e f' cs :
  in_int64 (off f) ->
  ghfsFile_Read buf f = (data, e, f', cs) ->
  entry f' = entry f /\ fi f' = fi f /\ atEnd f' = atEnd f /\
  off f' = wrap64 (off f + len data) /\
  len data <= Z.max 0 buf /\
  (e = None -> 1 <= buf -> 1 <= len data) /\
  (e = None \/ e = Some EOF \/ exists x, store_error f x /\ e = Some x) /\
  (forall x, store_error f' x -> store_error f x).
Proof.
  intros Hoff Hrd.
  destruct (ghfsFile_Read_cases buf f) as [(x & Hn & Hb & Hr) | (r & c0 & Hs & Hr)];
    rewrite Hr in Hrd.
  - inversion Hrd; subst. change (len (@nil byte)) with 0.
    rewrite Z.add_0_r, (wrap64_id _ Hoff).
    repeat split; auto; try lia; try congruence.
    right; right. exists x. split; [left; exact Hb | reflexivity].
  - destruct (Read_opened_spec buf f r c0)
      as [(Ha & Ho) | [(Ha & Hp & Ho) | (Ha & Hp & Ho)]];
      cbv zeta in Ho; rewrite Ho in Hrd; inversion Hrd; subst; clear Hrd.
    + change (len (@nil byte)) with 0. rewrite Z.add_0_r, (wrap64_id _ Hoff).
      repeat split; auto; try lia; try congruence.
      apply (store_error_back f _ r Hs); [reflexivity |].
      simpl. intros r' E. inversion E; reflexivity.
    + change (len (@nil byte)) with 0. unfold add64.
      repeat split; auto; try lia; try congruence.
      * destruct (rc_end_cases r) as [-> | (x & Hx & ->)]; [auto |].
        right; right. exists x. split; [| reflexivity].
        apply (store_error_back f (with_rc f (Some r)) r Hs); [reflexivity | |].
        -- simpl. intros r' E. inversion E; reflexivity.
        -- right; right. exists r. auto.
      * apply (store_error_back f _ r Hs); [reflexivity |].
        simpl. intros r' E. inversion E; reflexivity.
    + unfold add64. pose proof (len_pos _ Hp).
      repeat split; auto; try (rewrite len_firstn; lia).
      apply (store_error_back f _ r Hs); [reflexivity |].
      simpl. intros r' E. inversion E; reflexivity.
Qed.

(** ** The discarding copy *)

Lemma LimitedReader_frame (p N : Z) (f : ghfsFile) data e N' f' cs :
  in_int64 (off f) -> 1 <= p ->
  LimitedReader_Read p N f = (data, e, N', f', cs) ->
  entry f' = entry f /\ fi f' = fi f /\ atEnd f' = atEnd f /\
  off f' = wrap64 (off f + len data) /\
  N' = N - len data /\
  len data <= Z.max 0 N /\
  (e = None -> 1 <= len data) /\
  (e = None \/ e = Some EOF \/ exists x, store_error f x /\ e = Some x) /\
  (forall x, store_error f' x -> store_error f x).
Proof.
  intros Hoff Hp. unfold LimitedReader_Read.
  destruct (N <=? 0) eqn:EN.
  - intros H; inversion H; subst.
    change (len (@nil byte)) with 0. rewrite Z.add_0_r, (wrap64_id _ Hoff).
    apply Z.leb_le in EN.
    repeat split; auto; try lia; try congruence.
  - apply Z.leb_gt in EN.
    destruct (ghfsFile_Read (if p >? N then N else p) f) as [[[d0 e0] f0] c0] eqn:ER.
    intros H; inversion H; subst.
    destruct (Read_frame _ _ _ _ _ _ Hoff ER)
      as (He & Hf & Ha & Ho & Hl & H1 & Herr & Hback).
    assert (Hb : 1 <= (if p >? N then N else p) <= N).
    { rewrite Z.gtb_ltb. destruct (N <? p) eqn:Ep; [lia |].
      apply Z.ltb_ge in Ep. lia. }
    repeat split; auto; try lia.
    intros E. apply H1; auto; lia.
Qed.

(** [Discard.ReadFrom] returns, having read at most the [N] bytes allowed;
    an error it reports was raised by the store. *)
Lemma Discard_ReadFrom_returns (fuel : nat) :
  forall (N : Z) (f : ghfsFile) (n : Z) (cs : list StoreCall),
    in_int64 (off f) -> (Z.to_nat N < fuel)%nat ->
    exists w e f' cs',
      Discard_ReadFrom fuel N f n cs = Some (n + w, e, f', cs ++ cs') /\
      0 <= w <= Z.max 0 N /\
      entry f' = entry f /\ fi f' = fi f /\ atEnd f' = atEnd f /\
      off f' = wrap64 (off f + w) /\
      (e = None \/ exists x, store_error f x /\ e = Some x).
Proof.
  induction fuel as [|fuel IH]; intros N f n cs Hoff Hfuel; [lia |].
  simpl.
  destruct (LimitedReader_Read blackHoleSize N f) as [[[[d e] N'] f1] c1] eqn:EL.
  assert (Hp : 1 <= blackHoleSize) by (unfold blackHoleSize; lia).
  destruct (LimitedReader_frame _ _ _ _ _ _ _ _ Hoff Hp EL)
    as (He & Hf & Ha & Ho & HN & Hl & H1 & Herr & Hback).
  pose proof (len_nonneg d) as Hd.
  assert (Hstop : forall e1,
          (e1 = None \/ exists x, store_error f x /\ e1 = Some x) ->
          exists w e0 f' cs',
            Some (n + len d, e1, f1, cs ++ c1) = Some (n + w, e0, f', cs ++ cs') /\
            0 <= w <= Z.max 0 N /\
            entry f' = entry f /\ fi f' = fi f /\ atEnd f' = atEnd f /\
            off f' = wrap64 (off f + w) /\
            (e0 = None \/ exists x, store_error f x /\ e0 = Some x)).
  { intros e1 He1. exists (len d), e1, f1, c1. repeat split; auto; lia. }
  destruct e as [x|].
  - destruct Herr as [Hn | [Heof | (y & Hy & Hxy)]]; [discriminate | | ].
    + inversion Heof; subst. apply Hstop. left; reflexivity.
    + inversion Hxy; subst.
      destruct y; apply Hstop; try (right; eexists; split; [exact Hy | reflexivity]).
      left; reflexivity.
  - specialize (H1 eq_refl).
    assert (Hoff1 : in_int64 (off f1)) by (rewrite Ho; apply wrap64_range).
    assert (Hfuel1 : (Z.to_nat N' < fuel)%nat) by lia.
    destruct (IH N' f1 (n + len d) (cs ++ c1) Hoff1 Hfuel1)
      as (w & e0 & f' & cs' & Hrun & Hw & He' & Hf' & Ha' & Ho' & Herr').
    exists (len d + w), e0, f', (c1 ++ cs').
    rewrite Hrun. rewrite <- app_assoc, Z.add_assoc.
    repeat split; try congruence; try lia.
    + rewrite Ho', Ho, wrap64_add_l. f_equal. lia.
    + destruct Herr' as [-> | (x & Hx & ->)]; [left; reflexivity |].
      right. exists x. split; [apply Hback; exact Hx | reflexivity].
Qed.

(** [io.CopyN] returns; when it reports no error it has consumed exactly
    [n] bytes through the handle. *)
Lemma CopyN_Discard_returns (f : ghfsFile) (n : Z) :
  in_int64 (off f) -> 0 <= n ->
  exists w e f' cs,
    CopyN_Discard f n = Some (w, e, f', cs) /\
    (e = None -> w = n /\ off f' = wrap64 (off f + n)) /\
    (e = None \/ e = Some EOF \/ exists x, store_error f x /\ e = Some x) /\
    entry f' = entry f /\ fi f' = fi f /\ atEnd f' = atEnd f.
Proof.
  intros Hoff Hn. unfold CopyN_Discard.
  destruct (Discard_ReadFrom_returns (S (Z.to_nat n)) n f 0 [] Hoff)
    as (w & e & f' & cs' & Hrun & Hw & He & Hf & Ha & Ho & Herr); [lia |].
  rewrite Hrun. simpl.
  destruct (w =? n) eqn:Ewn.
  - apply Z.eqb_eq in Ewn. subst w.
    exists n, None, f', cs'. repeat split; auto.
  - apply Z.eqb_neq in Ewn.
    assert (Hlt : w < n) by lia.
    destruct e as [x|].
    + exists w, (Some x), f', cs'. repeat split; auto; try congruence.
      destruct Herr as [Hc | Hx]; [discriminate | auto].
    + apply Z.ltb_lt in Hlt. rewrite Hlt.
      exists w, (Some EOF), f', cs'. repeat split; auto; congruence.
Qed.

Lemma Close_spec (f : ghfsFile) :
  ghfsFile_Close f =
  (match rc f with Some r => rc_Close r | None => None end,
   {| entry := entry f; fi := fi f; rc := None; off := 0; atEnd := atEnd f |},
   match rc f with Some _ => [CallStreamClose] | None => [] end).
Proof. destruct f as [e i [r|] o a]; reflexivity. Qed.

(** The second half of [Seek] returns for every target that is not
    negative, and success means the handle stands at the target. *)
Lemma Seek_to_returns (noff : Z) (f : ghfsFile) :
  0 <= off f <= int64_max -> 0 <= noff <= int64_max ->
  exists n e f' cs,
    Seek_to noff f = Some (n, e, f', cs) /\
    (e = None -> n = noff /\ off f' = noff) /\
    (e = None \/ e = Some EOF \/ exists x, store_error f x /\ e = Some x) /\
    entry f' = entry f /\ fi f' = fi f /\ atEnd f' = false.
Proof.
  intros Hoff Hnoff. unfold Seek_to.
  assert (Hneg : (noff <? 0) = false) by (apply Z.ltb_ge; lia).
  rewrite Hneg. cbn [off with_atEnd].
  destruct (noff <? off f) eqn:Eback.
  - rewrite Close_spec. cbn [entry fi rc atEnd with_atEnd].
    set (f1 := {| entry := entry f; fi := fi f; rc := None; off := 0; atEnd := false |}).
    assert (Hin : in_int64 (off f1)) by (simpl; int64_lia).
    destruct (CopyN_Discard_returns f1 noff Hin) as
      (w & e & f' & cs & Hrun & Hok & Herr & He & Hi & Ha); [lia |].
    rewrite Hrun.
    exists w, e, f', (match rc f with Some _ => [CallStreamClose] | None => [] end ++ cs).
    assert (Hat : e = None -> w = noff /\ off f' = noff).
    { intros E. destruct (Hok E) as [Hw Ho]. split; [exact Hw |].
      rewrite Ho. simpl. apply wrap64_id. int64_lia. }
    assert (Hse : forall x, store_error f1 x -> store_error f x).
    { intros x [H | [H | (r & Hr & _)]]; [left | right; left | discriminate]; exact H. }
    split; [reflexivity |]. split; [exact Hat |].
    split; [| repeat split; auto].
    destruct Herr as [Hn | [Hn | (x & Hx & Hn)]]; auto.
    right; right. exists x. auto.
  - apply Z.ltb_ge in Eback.
    assert (Hsub : sub64 noff (off f) = noff - off f).
    { unfold sub64. apply wrap64_id. int64_lia. }
    rewrite Hsub.
    assert (Hin : in_int64 (off (with_atEnd f false))) by (simpl; int64_lia).
    destruct (CopyN_Discard_returns (with_atEnd f false) (noff - off f) Hin) as
      (w & e & f' & cs & Hrun & Hok & Herr & He & Hi & Ha); [lia |].
    rewrite Hrun. exists (off f'), e, f', cs.
    assert (Hat : forall E : e = None, off f' = noff).
    { intros E. destruct (Hok E) as [_ Ho]. rewrite Ho. simpl.
      replace (off f + (noff - off f)) with noff by lia.
      apply wrap64_id. int64_lia. }
    repeat split; auto.
Qed.

(** ** Reads of a handle whose upcoming bytes are known *)

Lemma stream_of_upcoming (f : ghfsFile) (r : ReadCloser) (p : list byte) :
  stream_of f r -> upcoming f = Ok p -> sound f ->
  pending r = p /\ broken r = None.
Proof.
  unfold stream_of, upcoming, sound, Blob_Data.
  intros [Hr | [Hn Hb]] Hup Hs.
  - rewrite Hr in *. inversion Hup. auto.
  - rewrite Hn in *. destruct (entry_blob (entry f)) as [b|x]; [| discriminate].
    inversion Hb; subst; simpl. inversion Hup. auto.
Qed.

(** A [Read] with a non-empty buffer on a handle that is not at its end
    delivers a non-empty prefix of the upcoming bytes, or [io.EOF] when
    none are left. *)
Lemma Read_upcoming (buf : Z) (f : ghfsFile) (p : list byte) :
  upcoming f = Ok p -> sound f -> atEnd f = false -> 1 <= buf ->
  0 <= off f -> off f + len p <= int64_max ->
  exists data rest e f' cs,
    ghfsFile_Read buf f = (data, e, f', cs) /\
    p = data ++ rest /\ upcoming f' = Ok rest /\ sound f' /\
    (p <> [] -> 1 <= len data <= buf /\ e = None) /\
    (p = [] -> data = [] /\ e = Some EOF) /\
    off f' = off f + len data /\
    entry f' = entry f /\ fi f' = fi f /\ atEnd f' = false.
Proof.
  intros Hup Hsound Hend Hbuf Hoff Hmax.
  pose proof (len_nonneg p) as Hp0.
  destruct (ghfsFile_Read_cases buf f) as [(x & Hn & Hb & Hr) | (r & c0 & Hs & Hr)].
  - unfold upcoming in Hup. rewrite Hn, Hb in Hup. discriminate.
  - destruct (stream_of_upcoming f r p Hs Hup Hsound) as [Hpend Hbr].
    rewrite Hr.
    destruct (Read_opened_spec buf f r c0)
      as [(Ha & Ho) | [(Ha & Hp & Ho) | (Ha & Hp & Ho)]];
      [congruence | |]; cbv zeta in Ho; rewrite Ho; clear Ho.
    + assert (Hnil : p = []) by congruence.
      exists [], [], (Some EOF). eexists; eexists. split.
      { unfold rc_end. rewrite Hbr. reflexivity. }
      unfold upcoming, sound, add64; simpl.
      rewrite Z.add_0_r, wrap64_id by int64_lia.
      change (len (@nil byte)) with 0.
      repeat split; auto; try congruence; lia.
    + set (k := Z.to_nat (Z.min buf (Z.pos (chunk r)))).
      exists (firstn k (pending r)), (skipn k (pending r)), None.
      eexists; eexists. split; [reflexivity |].
      pose proof (len_pos _ Hp) as Hpos.
      assert (Hlen : 1 <= len (firstn k (pending r)) <= buf).
      { rewrite len_firstn. unfold k. lia. }
      assert (Hle : len (firstn k (pending r)) <= len p).
      { rewrite <- Hpend, len_firstn. lia. }
      unfold upcoming, sound, add64; simpl.
      rewrite wrap64_id by int64_lia.
      repeat split; auto; try lia; try congruence.
      rewrite firstn_skipn. auto.
Qed.

(** Skipping [N] of the upcoming bytes through [Discard.ReadFrom] consumes
    exactly those [N] bytes and reports no error. *)
Lemma Discard_ReadFrom_skips (fuel : nat) :
  forall (N : Z) (f : ghfsFile) (n : Z) (cs : list StoreCall) (p : list byte),
    upcoming f = Ok p -> sound f -> atEnd f = false ->
    0 <= off f -> off f + len p <= int64_max ->
    0 <= N <= len p -> (Z.to_nat N < fuel)%nat ->
    exists c rest f' cs',
      Discard_ReadFrom fuel N f n cs = Some (n + N, None, f', cs ++ cs') /\
      p = c ++ rest /\ len c = N /\
      upcoming f' = Ok rest /\ sound f' /\ off f' = off f + N /\
      entry f' = entry f /\ fi f' = fi f /\ atEnd f' = false.
Proof.
  induction fuel as [|fuel IH];
    intros N f n cs p Hup Hsound Hend Hoff Hmax HN Hfuel; [lia |].
  simpl. unfold LimitedReader_Read.
  destruct (N <=? 0) eqn:EN.
  - apply Z.leb_le in EN. assert (N = 0) by lia. subst N.
    exists [], p, f, []. change (len (@nil byte)) with 0.
    rewrite !Z.add_0_r. repeat split; auto.
  - apply Z.leb_gt in EN.
    set (q := if blackHoleSize >? N then N else blackHoleSize).
    assert (Hq : 1 <= q <= N).
    { unfold q, blackHoleSize. rewrite Z.gtb_ltb.
      destruct (N <? 8192) eqn:E; [lia |]. apply Z.ltb_ge in E. lia. }
    destruct (Read_upcoming q f p Hup Hsound Hend) as
      (data & rest & e & f1 & c1 & Hrd & Hsplit & Hup1 & Hs1 & Hne & _ & Ho1 & He1 & Hi1 & Ha1);
      try lia.
    rewrite Hrd.
    assert (Hp : p <> []).
    { intros ->. change (len (@nil byte)) with 0 in HN. lia. }
    destruct (Hne Hp) as [Hlen ->].
    assert (Hlp : len p = len data + len rest) by (rewrite Hsplit; apply len_app).
    destruct (IH (N - len data) f1 (n + len data) (cs ++ c1) rest Hup1 Hs1 Ha1)
      as (c & rest' & f' & cs' & Hrun & Hsplit' & Hc & Hup' & Hs' & Ho' & He' & Hi' & Ha');
      try lia.
    exists (data ++ c), rest', f', (c1 ++ cs').
    rewrite Hrun. rewrite <- app_assoc.
    replace (n + len data + (N - len data)) with (n + N) by lia.
    repeat split; try congruence.
    + rewrite Hsplit, Hsplit', app_assoc. reflexivity.
    + rewrite len_app. lia.
    + lia.
Qed.

Lemma CopyN_Discard_skips (f : ghfsFile) (N : Z) (p : list byte) :
  upcoming f = Ok p -> sound f -> atEnd f = false ->
  0 <= off f -> off f + len p <= int64_max -> 0 <= N <= len p ->
  exists c rest f' cs,
    CopyN_Discard f N = Some (N, None, f', cs) /\
    p = c ++ rest /\ len c = N /\
    upcoming f' = Ok rest /\ sound f' /\ off f' = off f + N /\
    entry f' = entry f /\ fi f' = fi f /\ atEnd f' = false.
Proof.
  intros Hup Hsound Hend Hoff Hmax HN. unfold CopyN_Discard.
  destruct (Discard_ReadFrom_skips (S (Z.to_nat N)) N f 0 [] p
              Hup Hsound Hend Hoff Hmax HN)
    as (c & rest & f' & cs' & Hrun & Hrest); [lia |].
  rewrite Hrun. simpl. rewrite Z.eqb_refl.
  exists c, rest, f', cs'. split; [reflexivity | exact Hrest].
Qed.

(** Reading to the end collects exactly the upcoming bytes. *)
Lemma read_all_upcoming (fuel : nat) (buf : Z) :
  forall (f : ghfsFile) (p acc : list byte),
    upcoming f = Ok p -> sound f -> atEnd f = false -> 1 <= buf ->
    0 <= off f -> off f + len p <= int64_max ->
    (List.length p < fuel)%nat ->
    exists f', read_all fuel buf f acc = Some (acc ++ p, None, f') /\
               upcoming f' = Ok [] /\ off f' = off f + len p.
Proof.
  induction fuel as [|fuel IH];
    intros f p acc Hup Hsound Hend Hbuf Hoff Hmax Hfuel; [lia |].
  simpl.
  destruct (Read_upcoming buf f p Hup Hsound Hend Hbuf Hoff Hmax) as
    (data & rest & e & f1 & c1 & Hrd & Hsplit & Hup1 & Hs1 & Hne & Hnil & Ho1 & He1 & Hi1 & Ha1).
  rewrite Hrd.
  destruct p as [|b p'].
  - destruct (Hnil eq_refl) as [-> ->].
    exists f1. simpl in Hsplit. subst rest.
    change (len (@nil byte)) with 0 in *. repeat split; auto; lia.
  - destruct Hne as [Hlen ->]; [discriminate |].
    assert (Hlp : len (b :: p') = len data + len rest) by (rewrite Hsplit; apply len_app).
    destruct (IH f1 rest (acc ++ data) Hup1 Hs1 Ha1 Hbuf) as (f' & Hrun & Hup' & Ho');
      try lia.
    { unfold len in *. lia. }
    exists f'. rewrite Hrun, <- app_assoc, <- Hsplit. repeat split; auto. lia.
Qed.

(** ** The position invariant *)

Lemma NewFile_fresh (e : TreeEntry) (i : FileInfo) :
  NewFile e i = Ok (FileHandle (fresh e i)).
Proof. reflexivity. Qed.

Lemma positioned_fresh (e : TreeEntry) (i : FileInfo) (b : Blob) :
  entry_blob e = Ok b -> blob_fault b = None ->
  len (blob_bytes b) <= int64_max ->
  positioned (blob_bytes b) (fresh e i).
Proof.
  intros Hb Hf Hmax. unfold positioned, upcoming, sound, fresh; simpl. rewrite Hb.
  repeat split; auto; try lia.
  - exists b; auto.
  - apply len_nonneg.
Qed.

Lemma positioned_step (data : list byte) (f f' : ghfsFile) (c rest : list byte) :
  positioned data f ->
  skipn (Z.to_nat (off f)) data = c ++ rest ->
  entry f' = entry f -> off f' = off f + len c ->
  upcoming f' = Ok rest -> sound f' ->
  positioned data f'.
Proof.
  intros (Hb & Hmax & Hoff & Hup & Hs) Hsplit He Ho Hup' Hs'.
  assert (Hlen : len c + len rest = len data - off f).
  { rewrite <- len_app, <- Hsplit, len_skipn. lia. }
  pose proof (len_nonneg c). pose proof (len_nonneg rest).
  unfold positioned. rewrite He, Ho, Hup'.
  repeat split; auto; try lia.
  f_equal. symmetry. apply skipn_len_split; [lia | exact Hsplit].
Qed.

(** A read keeps the handle positioned and delivers the bytes that follow
    the offset it started from. *)
Lemma positioned_Read (data : list byte) (buf : Z) (f : ghfsFile) d e f' cs :
  positioned data f -> atEnd f = false -> 1 <= buf ->
  ghfsFile_Read buf f = (d, e, f', cs) ->
  positioned data f' /\ off f' = off f + len d /\
  exists rest, skipn (Z.to_nat (off f)) data = d ++ rest.
Proof.
  intros Hpos Hend Hbuf Hrd.
  pose proof Hpos as (Hb & Hmax & Hoff & Hup & Hs).
  assert (Hroom : off f + len (skipn (Z.to_nat (off f)) data) <= int64_max).
  { rewrite len_skipn. lia. }
  destruct (Read_upcoming buf f _ Hup Hs Hend Hbuf ltac:(lia) Hroom) as
    (d0 & rest & e0 & f0 & c0 & Hrd0 & Hsplit & Hup0 & Hs0 & _ & _ & Ho0 & He0 & _).
  rewrite Hrd in Hrd0. inversion Hrd0; subst.
  split; [| split; [exact Ho0 | exists rest; exact Hsplit]].
  eapply positioned_step; eauto.
Qed.

Lemma positioned_Close (data : list byte) (f : ghfsFile) :
  positioned data f ->
  positioned data (snd (fst (ghfsFile_Close f))).
Proof.
  intros ((b & Hb & Hd & Hf) & Hmax & Hoff & Hup & Hs). rewrite Close_spec. simpl.
  unfold positioned, upcoming, sound; simpl. rewrite Hb, Hd.
  repeat split; auto; try lia. exists b; auto.
Qed.

(** A positioned handle that has advanced has its stream open. *)
Lemma positioned_open_stream (data : list byte) (f : ghfsFile) :
  positioned data f -> 0 < off f -> exists r, rc f = Some r.
Proof.
  intros ((b & Hb & Hd & Hf) & Hmax & Hoff & Hup & Hs) Hpos.
  destruct (rc f) as [r|] eqn:Er; [eauto |].
  unfold upcoming in Hup. rewrite Er, Hb, Hd in Hup. inversion Hup as [Heq].
  apply (f_equal len) in Heq. rewrite len_skipn in Heq. lia.
Qed.

Lemma positioned_unopened (data : list byte) (f : ghfsFile) :
  positioned data f ->
  upcoming (unopened f) = Ok data /\ sound (unopened f) /\ positioned data (unopened f).
Proof.
  intros ((b & Hb & Hd & Hf) & Hmax & Hoff & Hup & Hs).
  unfold positioned, upcoming, sound, unopened; simpl. rewrite Hb, Hd.
  repeat split; auto; try lia. exists b; auto.
Qed.

(** A seek to a target inside the data succeeds, returns the target and
    leaves the handle positioned there, whichever way it goes. *)
Lemma positioned_Seek_to (data : list byte) (noff : Z) (f : ghfsFile) :
  positioned data f -> 0 <= noff <= len data ->
  exists f' cs,
    Seek_to noff f = Some (noff, None, f', cs) /\
    positioned data f' /\ off f' = noff /\ atEnd f' = false.
Proof.
  intros Hpos Hn.
  pose proof Hpos as (Hb & Hmax & Hoff & Hup & Hs).
  unfold Seek_to.
  assert (Hneg : (noff <? 0) = false) by (apply Z.ltb_ge; lia).
  rewrite Hneg. cbn [off with_atEnd].
  destruct (noff <? off f) eqn:Eback.
  - rewrite Close_spec. cbn [entry fi rc atEnd with_atEnd]. fold (unopened f).
    destruct (positioned_unopened data f Hpos) as (Hup0 & Hs0 & Hpos0).
    destruct (CopyN_Discard_skips (unopened f) noff data Hup0 Hs0 eq_refl)
      as (c & rest & f1 & cs & Hcopy & Hsplit & Hc & Hup1 & Hs1 & Ho1 & He1 & Hi1 & Ha1);
      simpl; try lia.
    rewrite Hcopy. simpl in Ho1. eexists; eexists. split; [reflexivity |].
    split; [| split; [lia | exact Ha1]].
    apply (positioned_step data (unopened f) f1 c rest Hpos0); auto.
    simpl. lia.
  - apply Z.ltb_ge in Eback.
    assert (Hsub : sub64 noff (off f) = noff - off f).
    { unfold sub64. apply wrap64_id. int64_lia. }
    rewrite Hsub.
    assert (Hroom : off f + len (skipn (Z.to_nat (off f)) data) <= int64_max).
    { rewrite len_skipn. lia. }
    destruct (CopyN_Discard_skips (with_atEnd f false) (noff - off f)
                (skipn (Z.to_nat (off f)) data))
      as (c & rest & f1 & cs & Hcopy & Hsplit & Hc & Hup1 & Hs1 & Ho1 & He1 & Hi1 & Ha1);
      auto; try (simpl; lia).
    { rewrite len_skipn. lia. }
    rewrite Hcopy. simpl in Ho1, He1.
    assert (Hat : off f1 = noff) by lia.
    rewrite Hat. eexists; eexists. split; [reflexivity |].
    split; [| split; [exact Hat | exact Ha1]].
    apply (positioned_step data f f1 c rest Hpos); auto. lia.
Qed.

Lemma with_rc_same (f : ghfsFile) (r : ReadCloser) :
  rc f = Some r -> with_rc f (Some r) = f.
Proof. destruct f; simpl; intros ->; reflexivity. Qed.

(** ** Seeking *)

(** C1.  Take a handle over a readable, undamaged blob whose stream stands
    at offset [off f] ([positioned]: what [NewFile] builds and [Read],
    [Close] and a seek inside the data keep).  A backward seek to
    [a < off f] closes the stream [r] the handle has, leaving the handle
    unopened at offset 0 (what the stream answers to its closing is what
    [Close] returns, and [Seek] drops it), and skips [a] bytes through
    [Read]; it returns [a], and reading on to the end then yields exactly
    the blob's bytes after the first [a], where a fresh handle read from
    scratch yields the whole blob. *)
Theorem backward_seek_replays_from_start
    (data : list byte) (f : ghfsFile) (a buf : Z) :
  positioned data f -> 0 <= a < off f -> 1 <= buf ->
  exists r f1 cs f2 f3,
    rc f = Some r /\
    ghfsFile_Close (with_atEnd f false) = (rc_Close r, unopened f, [CallStreamClose]) /\
    CopyN_Discard (unopened f) a = Some (a, None, f1, cs) /\
    ghfsFile_Seek a SEEK_SET f = Some (a, None, f1, [CallStreamClose] ++ cs) /\
    positioned data f1 /\ off f1 = a /\ atEnd f1 = false /\
    read_all (S (List.length data)) buf f1 [] =
      Some (skipn (Z.to_nat a) data, None, f2) /\
    read_all (S (List.length data)) buf (fresh (entry f) (fi f)) [] =
      Some (data, None, f3).
Proof.
  intros Hpos Ha Hbuf.
  pose proof Hpos as ((b & Hb & Hd & Hf) & Hmax & Hoff & Hup & Hs).
  destruct (positioned_open_stream data f Hpos ltac:(lia)) as [r Hr].
  assert (Hclose : ghfsFile_Close (with_atEnd f false)
                   = (rc_Close r, unopened f, [CallStreamClose])).
  { rewrite Close_spec. simpl. rewrite Hr. reflexivity. }
  destruct (positioned_unopened data f Hpos) as (Hup0 & Hs0 & Hpos0).
  destruct (CopyN_Discard_skips (unopened f) a data Hup0 Hs0 eq_refl)
    as (c & rest & f1 & cs & Hcopy & Hsplit & Hc & Hup1 & Hs1 & Ho1 & He1 & Hi1 & Ha1);
    simpl; try lia.
  simpl in Ho1.
  assert (Hrest : skipn (Z.to_nat a) data = rest).
  { rewrite Hsplit. apply skipn_app_exact. exact Hc. }
  assert (Hpos1 : positioned data f1).
  { apply (positioned_step data (unopened f) f1 c rest Hpos0); auto. simpl. lia. }
  assert (Hlen : len data = a + len rest).
  { rewrite Hsplit, len_app. lia. }
  destruct (read_all_upcoming (S (List.length data)) buf f1 rest [] Hup1 Hs1 Ha1 Hbuf)
    as (f2 & Hall & _); try lia.
  { unfold len in *. lia. }
  assert (Hfresh : fresh (entry f) (fi f) = unopened f) by reflexivity.
  destruct (read_all_upcoming (S (List.length data)) buf (unopened f)
              data [] Hup0 Hs0 eq_refl Hbuf) as (f3 & Hall3 & _); simpl; try lia.
  exists r, f1, cs, f2, f3.
  split; [exact Hr |]. split; [exact Hclose |]. split; [exact Hcopy |].
  split.
  { unfold ghfsFile_Seek. simpl. unfold Seek_to.
    assert (Hn : (a <? 0) = false) by (apply Z.ltb_ge; lia).
    assert (Hlt : (a <? off (with_atEnd f false)) = true) by (apply Z.ltb_lt; simpl; lia).
    rewrite Hn, Hlt, Hclose, Hcopy. reflexivity. }
  split; [exact Hpos1 |]. split; [lia |]. split; [exact Ha1 |].
  split; [rewrite Hrest; exact Hall | rewrite Hfresh; exact Hall3].
Qed.

Lemma backward_seek_replays_from_start_witness :
  exists r f1 cs f2 f3,
    rc a_after_read = Some r /\
    ghfsFile_Close (with_atEnd a_after_read false)
      = (rc_Close r, unopened a_after_read, [CallStreamClose]) /\
    CopyN_Discard (unopened a_after_read) 1 = Some (1, None, f1, cs) /\
    ghfsFile_Seek 1 SEEK_SET a_after_read = Some (1, None, f1, [CallStreamClose] ++ cs) /\
    positioned abcd f1 /\ off f1 = 1 /\ atEnd f1 = false /\
    read_all 5 2 f1 [] = Some ([x62; x63; x64], None, f2) /\
    read_all 5 2 (fresh a_txt (modTimeFileInfo a_txt 1430000000)) [] =
      Some (abcd, None, f3).
Proof.
  apply (backward_seek_replays_from_start abcd a_after_read 1 2).
  - unfold positioned. repeat split; try reflexivity.
    + exists {| blob_bytes := abcd; blob_chunk := 3; blob_fault := None;
                     blob_closing := fun _ => None |}.
      repeat split; reflexivity.
    + vm_compute; discriminate.
    + vm_compute; discriminate.
    + vm_compute; discriminate.
  - simpl; lia.
  - lia.
Defined.

(** C3.  [Seek(0, SEEK_END)] returns the entry's declared size with no
    error, changes nothing in the handle but the at-end mark, which it
    sets, and makes no call to the store: no stream is opened and none is
    read. *)
Theorem Seek_end_zero_is_immediate (f : ghfsFile) :
  ghfsFile_Seek 0 SEEK_END f = Some (Size (entry f), None, with_atEnd f true, []) /\
  atEnd (with_atEnd f true) = true /\
  rc (with_atEnd f true) = rc f /\ off (with_atEnd f true) = off f.
Proof. repeat split. Qed.

(** ** Reading and closing *)

(** C4, as the code has it.  A [Read] on a handle that is at its end
    delivers no bytes, never reads from a stream and leaves the offset and
    the at-end mark alone.  With a stream already open it reports
    [io.EOF], calls nothing and changes nothing.  Without one it first
    opens a stream on the blob: it then reports [io.EOF] and keeps the new
    stream in the handle, or, when the store refuses, reports the store's
    error. *)
Theorem Read_at_end (f : ghfsFile) (buf : Z) :
  atEnd f = true ->
  match rc f with
  | Some _ => ghfsFile_Read buf f = ([], Some EOF, f, [])
  | None =>
      match Blob_Data (entry f) with
      | Ok r => ghfsFile_Read buf f = ([], Some EOF, with_rc f (Some r), [CallBlobData])
      | Err x => ghfsFile_Read buf f = ([], Some x, f, [CallBlobData])
      end
  end.
Proof.
  intros H. unfold ghfsFile_Read, Read_opened.
  destruct (rc f) as [r|] eqn:Er.
  - rewrite H, (with_rc_same f r Er). reflexivity.
  - destruct (Blob_Data (entry f)) as [r|x]; [rewrite H |]; reflexivity.
Qed.

Lemma Read_at_end_witness :
  ghfsFile_Read 4 a_at_end =
  ([], Some EOF,
   with_rc a_at_end (Some {| pending := abcd; chunk := 3; broken := None;
                closing := fun _ => None |}),
   [CallBlobData]).
Proof. apply (Read_at_end a_at_end 4). reflexivity. Defined.

(** C4 fails as stated.  The handle for [/a.txt] right after
    [Seek(0, SEEK_END)] is at its end and has no stream; a [Read] on it
    opens one and keeps it. *)
Lemma Read_at_end_opens_stream_counterexample :
  ghfsFile_Seek 0 SEEK_END a_handle = Some (4, None, a_at_end, []) /\
  atEnd a_at_end = true /\
  exists f', ghfsFile_Read 4 a_at_end = ([], Some EOF, f', [CallBlobData]) /\
             rc a_at_end = None /\
             rc f' = Some {| pending := abcd; chunk := 3; broken := None;
                closing := fun _ => None |} /\
             f' <> a_at_end.
Proof.
  split; [reflexivity |]. split; [reflexivity |].
  eexists. split; [reflexivity |]. repeat split. discriminate.
Qed.

(** C5, as the code has it.  For every handle, [Close] closes the stream
    if one is open, returning what the stream answers, and leaves the
    handle without a stream at offset 0; the at-end mark stays as it was,
    set or not.  A [Read] after that is not refused: it opens a new
    stream on the blob.  If the store cannot open it, the [Read] returns
    the store's error and the handle stays closed.  If the handle is
    marked at its end, the [Read] reports [io.EOF] and keeps the new
    stream.  Otherwise it delivers the first bytes of the blob, at least
    one when the blob and the buffer are not empty, and, when the blob is
    empty, what the stream reports at its end. *)
Theorem Close_then_Read_reopens (f : ghfsFile) (buf : Z) :
  0 <= buf <= int64_max ->
  let closed :=
    {| entry := entry f; fi := fi f; rc := None; off := 0; atEnd := atEnd f |} in
  ghfsFile_Close f =
    (match rc f with Some r => rc_Close r | None => None end, closed,
     match rc f with Some _ => [CallStreamClose] | None => [] end) /\
  match Blob_Data (entry f) with
  | Err x => ghfsFile_Read buf closed = ([], Some x, closed, [CallBlobData])
  | Ok r =>
      if atEnd f then
        ghfsFile_Read buf closed =
          ([], Some EOF, with_rc closed (Some r), [CallBlobData])
      else
        exists data rest e f',
          ghfsFile_Read buf closed =
            (data, e, f', [CallBlobData; CallStreamRead (len data)]) /\
          pending r = data ++ rest /\ len data <= buf /\
          off f' = len data /\ upcoming f' = Ok rest /\ atEnd f' = false /\
          (pending r <> [] -> e = None /\ (1 <= buf -> 1 <= len data)) /\
          (pending r = [] -> data = [] /\ e = Some (rc_end r))
  end.
Proof.
  intros Hbuf closed. split; [apply Close_spec |].
  unfold ghfsFile_Read. cbn [rc entry closed].
  destruct (Blob_Data (entry f)) as [r|x]; [| reflexivity].
  destruct (Read_opened_spec buf closed r [CallBlobData])
    as [(Ha & Ho) | [(Ha & Hp & Ho) | (Ha & Hp & Ho)]];
    cbv zeta in Ho; rewrite Ho; cbn [atEnd closed] in Ha; rewrite Ha; clear Ho.
  - reflexivity.
  - exists [], [], (Some (rc_end r)). eexists. split; [reflexivity |].
    rewrite Hp. unfold upcoming, add64; simpl.
    change (len (@nil byte)) with 0.
    repeat split; auto; try lia; try congruence.
  - set (k := Z.to_nat (Z.min buf (Z.pos (chunk r)))).
    exists (firstn k (pending r)), (skipn k (pending r)), None.
    eexists. split; [reflexivity |].
    pose proof (len_pos _ Hp) as Hpos.
    assert (Hlen : len (firstn k (pending r)) <= buf).
    { rewrite len_firstn. unfold k. lia. }
    pose proof (len_nonneg (firstn k (pending r))) as Hge.
    unfold upcoming, add64; simpl.
    rewrite wrap64_id by int64_lia.
    repeat split; auto; try lia; try congruence.
    + symmetry. apply firstn_skipn.
    + intros Hb1. rewrite len_firstn. unfold k. lia.
Qed.

(** The handle for [/a.txt], read once and then marked at its end by
    [Seek(0, SEEK_END)]: [Close] keeps the mark, and the next [Read]
    opens a stream and reports [io.EOF]. *)
Lemma Close_then_Read_reopens_witness :
  let closed := with_atEnd a_handle true in
  ghfsFile_Close (with_atEnd a_after_read true) = (None, closed, [CallStreamClose]) /\
  ghfsFile_Read 2 closed =
    ([], Some EOF,
     with_rc closed (Some {| pending := abcd; chunk := 3; broken := None;
                             closing := fun _ => None |}),
     [CallBlobData]).
Proof.
  apply (Close_then_Read_reopens (with_atEnd a_after_read true) 2).
  int64_lia.
Defined.

(** C5 fails as stated.  The handle for [/a.txt], read once and then
    closed, does not refuse the next [Read]: it delivers [ab].  And the
    same handle marked at its end before it is closed is still marked
    after: [Close] does not drop the at-end state. *)
Lemma Read_after_Close_counterexample :
  ghfsFile_Read 3 a_handle =
    ([x61; x62; x63], None, a_after_read, [CallBlobData; CallStreamRead 3]) /\
  ghfsFile_Close a_after_read = (None, a_handle, [CallStreamClose]) /\
  (exists f', ghfsFile_Read 2 a_handle =
              ([x61; x62], None, f', [CallBlobData; CallStreamRead 2])) /\
  ghfsFile_Seek 0 SEEK_END a_after_read =
    Some (4, None, with_atEnd a_after_read true, []) /\
  atEnd (snd (fst (ghfsFile_Close (with_atEnd a_after_read true)))) = true.
Proof.
  split; [reflexivity |]. split; [reflexivity |].
  split; [eexists; reflexivity |]. split; reflexivity.
Qed.

(** ** Opening the root, and operations on the wrong kind of handle *)

Lemma Open_root_is_NewDir (fs : ghfs) (name : string) :
  name = EmptyString \/ name = "/" ->
  Open fs name = NewDir (fs_tree fs) rootFileInfo.
Proof. intros [-> | ->]; reflexivity. Qed.

(** C6, as the code has it.  [Open] of the empty name and of the name
    [/] look no path up: the one call they make to the store asks for
    the scanner of the root tree.  When the store provides it, they
    return a directory handle over the root tree, built from
    [rootFileInfo]: its [Stat] is the synthetic [rootFileInfo], with the
    empty name, of size 0 and a directory by [IsDir] and by its mode.
    When the store fails, they return the store's error. *)
Theorem Open_root (fs : ghfs) (name : string) :
  name = EmptyString \/ name = "/" ->
  snd (Open fs name) = [CallScanner] /\
  filter is_path_lookup (snd (Open fs name)) = [] /\
  match Tree_Scanner (fs_tree fs) with
  | Ok sc =>
      let d := {| d_tree := fs_tree fs; d_fi := rootFileInfo; d_scanner := sc |} in
      fst (Open fs name) = Ok (DirHandle d) /\
      ghfsDir_Stat d = (rootFileInfo, None) /\
      FileInfo_Name rootFileInfo = EmptyString /\
      FileInfo_Size rootFileInfo = 0 /\
      FileInfo_IsDir rootFileInfo = true /\
      Z.land rootFileInfo_Mode ModeDir = ModeDir
  | Err x => fst (Open fs name) = Err x
  end.
Proof.
  intros Hname.
  rewrite (Open_root_is_NewDir fs name Hname). unfold NewDir.
  destruct (Tree_Scanner (fs_tree fs)) as [sc|x]; repeat split.
Qed.

Lemma Open_root_witness :
  snd (Open fs "/") = [CallScanner] /\
  filter is_path_lookup (snd (Open fs "/")) = [] /\
  let d := {| d_tree := root_tree; d_fi := rootFileInfo;
              d_scanner := {| rest := [a_txt; dir]; stopped := false; fault := None |} |} in
  fst (Open fs "/") = Ok (DirHandle d) /\
  ghfsDir_Stat d = (rootFileInfo, None) /\
  FileInfo_Name rootFileInfo = EmptyString /\
  FileInfo_Size rootFileInfo = 0 /\
  FileInfo_IsDir rootFileInfo = true /\
  Z.land rootFileInfo_Mode ModeDir = ModeDir.
Proof.
  apply (Open_root fs "/"). right; reflexivity.
Defined.

(** C6 fails as stated.  On a snapshot whose root tree the store cannot
    scan, [Open] of the empty name and of [/] return the store's error
    and no handle. *)
Lemma Open_root_store_error_counterexample :
  Tree_Scanner (fs_tree unscannable_fs) = Err (LibError "object not found") /\
  Open unscannable_fs EmptyString = (Err (LibError "object not found"), [CallScanner]) /\
  Open unscannable_fs "/" = (Err (LibError "object not found"), [CallScanner]) /\
  forall d, fst (Open unscannable_fs "/") <> Ok (DirHandle d).
Proof.
  split; [reflexivity |]. split; [reflexivity |]. split; [reflexivity |].
  intros d. discriminate.
Qed.

(** Whatever the store answers, opening the root looks no path up. *)
Lemma Open_root_no_lookup (fs : ghfs) (name : string) :
  name = EmptyString \/ name = "/" ->
  filter is_path_lookup (snd (Open fs name)) = [].
Proof.
  intros Hname. rewrite (Open_root_is_NewDir fs name Hname). unfold NewDir.
  destruct (Tree_Scanner (fs_tree fs)); reflexivity.
Qed.

(** C9, as the code has it.  On a directory handle [Read] delivers no
    bytes and reports [io.EOF], and [Seek] fails with [EISDIR], whatever
    their arguments; on a file handle [Readdir] returns no entries and
    fails with [os.ErrInvalid], whatever the count.  None of them changes
    the handle. *)
Theorem wrong_kind_operations_fail
    (d : ghfsDir) (f : ghfsFile) (buf offset whence count : Z) :
  ghfsDir_Read buf d = ([], Some EOF, d) /\
  ghfsDir_Seek offset whence d = (0, Some EISDIR, d) /\
  ghfsFile_Readdir count f = ([], Some ErrInvalid, f).
Proof. repeat split. Qed.

(** C9 fails as stated: the error of [Readdir] on the handle for
    [/a.txt] is [os.ErrInvalid], the invalid-argument error, and not
    [ENOTDIR]. *)
Lemma Readdir_on_file_counterexample :
  snd (fst (ghfsFile_Readdir 10 a_handle)) = Some ErrInvalid /\
  snd (fst (ghfsFile_Readdir 10 a_handle)) <> Some ENOTDIR.
Proof. split; [reflexivity | discriminate]. Qed.

(** ** Listing a directory *)

Lemma Readdir_loop_length (c : nat) :
  forall sc ret, (List.length (fst (Readdir_loop c sc ret)) <= List.length ret + c)%nat.
Proof.
  induction c as [|c IH]; intros sc ret; simpl; [lia |].
  unfold Scan. destruct (rest sc) as [|e es]; simpl; [lia |].
  eapply Nat.le_trans; [apply IH |]. rewrite length_app. simpl. lia.
Qed.

(** With a positive count [Readdir] returns at most that many entries. *)
Lemma Readdir_at_most_count (count : Z) (d : ghfsDir) :
  0 < count -> len (fst (fst (ghfsDir_Readdir count d))) <= count.
Proof.
  intros Hc. unfold ghfsDir_Readdir.
  pose proof (Readdir_loop_length (Z.to_nat count) (d_scanner d) []) as H.
  destruct (Readdir_loop (Z.to_nat count) (d_scanner d) []) as [ret sc].
  simpl in H. destruct (Scanner_Err sc); simpl; unfold len; lia.
Qed.

(** With a count that is not positive the loop body never runs: nothing
    is returned and the scanner does not move. *)
Lemma Readdir_nonpositive_count (count : Z) (d : ghfsDir) :
  count <= 0 ->
  fst (fst (ghfsDir_Readdir count d)) = [] /\
  d_scanner (snd (ghfsDir_Readdir count d)) = d_scanner d.
Proof.
  intros Hc. unfold ghfsDir_Readdir.
  replace (Z.to_nat count) with O by lia. simpl.
  destruct (Scanner_Err (d_scanner d)); split; reflexivity.
Qed.

(** A scanner that has run dry without a fault makes [Readdir] return no
    entries and no error, [io.EOF] included, on every later call. *)
Lemma Readdir_drained (count : Z) (d : ghfsDir) :
  rest (d_scanner d) = [] -> fault (d_scanner d) = None ->
  exists d', ghfsDir_Readdir count d = ([], None, d') /\
             rest (d_scanner d') = [] /\ fault (d_scanner d') = None.
Proof.
  intros Hrest Hfault. unfold ghfsDir_Readdir.
  destruct (Z.to_nat count) as [|c]; simpl.
  - unfold Scanner_Err. rewrite Hfault.
    destruct (stopped (d_scanner d)); eexists; repeat split; auto.
  - unfold Scan. rewrite Hrest. unfold Scanner_Err. simpl. rewrite Hfault.
    eexists; repeat split; auto.
Qed.

(** C7 at the failing input: the handle for [/dir] has the entry [b.txt]
    to deliver, and [Readdir(-1)] and [Readdir(0)] return nothing, without
    an error and without moving the scanner. *)
Theorem Readdir_nonpositive_returns_nothing :
  rest (d_scanner dir_handle) = [b_txt] /\
  ghfsDir_Readdir (-1) dir_handle = ([], None, dir_handle) /\
  ghfsDir_Readdir 0 dir_handle = ([], None, dir_handle) /\
  ghfsDir_Readdir 1 dir_handle = ([entryFileInfo b_txt], None, dir_handle_drained).
Proof. repeat split. Qed.

(** The fault of a scanner does not change under the loop of [Readdir]. *)
Lemma Readdir_loop_fault (c : nat) :
  forall sc ret, fault (snd (Readdir_loop c sc ret)) = fault sc.
Proof.
  induction c as [|c IH]; intros sc ret; simpl; [reflexivity |].
  unfold Scan. destruct (rest sc) as [|e es]; simpl; [reflexivity |].
  rewrite IH. reflexivity.
Qed.

(** Once the handle for [/dir] has delivered its one entry, [Readdir(1)]
    returns no entries and a nil error: the end is not announced by
    [io.EOF]. *)
Example Readdir_after_end_reports_nothing :
  ghfsDir_Readdir 1 dir_handle = ([entryFileInfo b_txt], None, dir_handle_drained) /\
  exists d', ghfsDir_Readdir 1 dir_handle_drained = ([], None, d') /\
             ghfsDir_Readdir 1 d' = ([], None, d') /\
             snd (fst (ghfsDir_Readdir 1 d')) <> Some EOF.
Proof.
  split; [reflexivity |]. eexists. split; [reflexivity |].
  split; [reflexivity | discriminate].
Qed.

(** *** The earlier generation does both *)

Lemma Indexed_Readdir_loop_all (fuel : nat) :
  forall (count : Z) (t : GhfsIndexed.Tree) (i : nat) (ret : list GhfsIndexed.ghfsFileInfo),
    count <= 0 -> (i <= List.length (GhfsIndexed.entries t))%nat ->
    (List.length (GhfsIndexed.entries t) - i < fuel)%nat ->
    GhfsIndexed.Readdir_loop fuel count t (Z.of_nat i) ret =
    Some (ret ++ map (GhfsIndexed.NewFileInfo t) (skipn i (GhfsIndexed.entries t)),
          GhfsIndexed.EntryCount t).
Proof.
  induction fuel as [|fuel IH]; intros count t i ret Hc Hi Hfuel; [lia |].
  simpl. unfold GhfsIndexed.EntryCount, len.
  destruct (Z.of_nat i <? Z.of_nat (List.length (GhfsIndexed.entries t))) eqn:Elt.
  - apply Z.ltb_lt in Elt.
    assert (Hcnt : (count >? 0) = false) by (rewrite Z.gtb_ltb; apply Z.ltb_ge; lia).
    rewrite Hcnt. simpl.
    unfold GhfsIndexed.EntryByIndex.
    assert (Hn : (Z.of_nat i <? 0) = false) by (apply Z.ltb_ge; lia).
    rewrite Hn, Nat2Z.id.
    destruct (nth_error (GhfsIndexed.entries t) i) as [e|] eqn:En.
    + replace (Z.of_nat i + 1) with (Z.of_nat (S i)) by lia.
      rewrite IH by lia. unfold GhfsIndexed.EntryCount, len.
      rewrite <- app_assoc. simpl.
      assert (Hsk : skipn i (GhfsIndexed.entries t)
                    = e :: skipn (S i) (GhfsIndexed.entries t)).
      { clear - En. revert i En. induction (GhfsIndexed.entries t) as [|x l IHl];
          intros [|i] En; simpl in *; try discriminate.
        - inversion En; reflexivity.
        - apply IHl. exact En. }
      rewrite Hsk. reflexivity.
    + apply nth_error_None in En. lia.
  - apply Z.ltb_ge in Elt. assert (i = List.length (GhfsIndexed.entries t)) by lia.
    subst i. rewrite skipn_all. simpl. rewrite app_nil_r. reflexivity.
Qed.

(** The index-walking [Readdir]: a count that is not positive returns all
    the entries that remain, and a call at the end reports [io.EOF] with
    no entries and leaves the handle there. *)
Lemma Indexed_Readdir_all_and_end (count : Z) (d : GhfsIndexed.ghfsDir) :
  0 <= GhfsIndexed.idx d ->
  (GhfsIndexed.idx d < GhfsIndexed.EntryCount (GhfsIndexed.tree d) -> count <= 0 ->
   GhfsIndexed.ghfsDir_Readdir count d =
   Some (map (GhfsIndexed.NewFileInfo (GhfsIndexed.tree d))
             (skipn (Z.to_nat (GhfsIndexed.idx d)) (GhfsIndexed.entries (GhfsIndexed.tree d))),
         None,
         {| GhfsIndexed.tree := GhfsIndexed.tree d; GhfsIndexed.fi := GhfsIndexed.fi d;
            GhfsIndexed.idx := GhfsIndexed.EntryCount (GhfsIndexed.tree d) |})) /\
  (GhfsIndexed.EntryCount (GhfsIndexed.tree d) <= GhfsIndexed.idx d ->
   GhfsIndexed.ghfsDir_Readdir count d = Some ([], Some EOF, d)).
Proof.
  intros Hidx. unfold GhfsIndexed.ghfsDir_Readdir. split.
  - intros Hlt Hc.
    assert (Hge : (GhfsIndexed.idx d >=? GhfsIndexed.EntryCount (GhfsIndexed.tree d)) = false).
    { rewrite Z.geb_leb. apply Z.leb_gt. lia. }
    rewrite Hge.
    rewrite <- (Z2Nat.id (GhfsIndexed.idx d)) at 2 by lia.
    unfold GhfsIndexed.EntryCount, len in *.
    rewrite Indexed_Readdir_loop_all by lia. reflexivity.
  - intros Hge. assert (H : (GhfsIndexed.idx d >=? GhfsIndexed.EntryCount (GhfsIndexed.tree d)) = true).
    { rewrite Z.geb_leb. apply Z.leb_le. lia. }
    rewrite H. reflexivity.
Qed.

(** C8.  In the index-walking reader, the one that reports the end of a
    directory: when a [Readdir] has reported [io.EOF], it returned no
    entries and left the handle as it was, and every later [Readdir] on
    that handle, whatever its count, again returns no entries and
    [io.EOF]; none fails otherwise.  The scanner-based reader never
    reports the end, so no handle of it is one whose end was reported;
    once its scanner has run dry without a fault, every [Readdir],
    whatever its count, returns no entries and no error, and the scanner
    stays dry. *)
Theorem Readdir_done_stays_done :
  (forall (count : Z) (d d' : GhfsIndexed.ghfsDir) (es : list GhfsIndexed.ghfsFileInfo),
     GhfsIndexed.ghfsDir_Readdir count d = Some (es, Some EOF, d') ->
     es = [] /\ d' = d /\
     forall count' : Z,
       GhfsIndexed.ghfsDir_Readdir count' d' = Some ([], Some EOF, d')) /\
  (forall (count : Z) (d : ghfsDir) (es : list FileInfo) (e : option error) (d' : ghfsDir),
     ghfsDir_Readdir count d = (es, e, d') -> fault (d_scanner d) <> Some EOF ->
     e <> Some EOF) /\
  (forall (count : Z) (d : ghfsDir),
     rest (d_scanner d) = [] -> fault (d_scanner d) = None ->
     exists d', ghfsDir_Readdir count d = ([], None, d') /\
                rest (d_scanner d') = [] /\ fault (d_scanner d') = None).
Proof.
  split; [| split].
  - intros count d d' es H. unfold GhfsIndexed.ghfsDir_Readdir in H.
    destruct (GhfsIndexed.idx d >=? GhfsIndexed.EntryCount (GhfsIndexed.tree d)) eqn:E.
    + inversion H; subst. repeat split.
      intros count'. unfold GhfsIndexed.ghfsDir_Readdir. rewrite E. reflexivity.
    + destruct (GhfsIndexed.Readdir_loop _ _ _ _ _) as [[ret i]|]; discriminate.
  - intros count d es e d' H Hf. unfold ghfsDir_Readdir in H.
    pose proof (Readdir_loop_fault (Z.to_nat count) (d_scanner d) []) as Hk.
    destruct (Readdir_loop (Z.to_nat count) (d_scanner d) []) as [ret sc].
    simpl in Hk. unfold Scanner_Err in H.
    destruct (stopped sc).
    + rewrite Hk in H. destruct (fault (d_scanner d)) as [x|];
        inversion H; subst; congruence.
    + inversion H; subst. discriminate.
  - apply Readdir_drained.
Qed.

Lemma Readdir_done_stays_done_witness :
  (@nil GhfsIndexed.ghfsFileInfo = [] /\ indexed_dir_at_end = indexed_dir_at_end /\
   forall count' : Z,
     GhfsIndexed.ghfsDir_Readdir count' indexed_dir_at_end =
     Some ([], Some EOF, indexed_dir_at_end)) /\
  (exists d', ghfsDir_Readdir 1 dir_handle_drained = ([], None, d') /\
              rest (d_scanner d') = [] /\ fault (d_scanner d') = None).
Proof.
  split.
  - apply (proj1 Readdir_done_stays_done 1 indexed_dir_at_end indexed_dir_at_end []).
    reflexivity.
  - apply (proj2 (proj2 Readdir_done_stays_done) 1 dir_handle_drained); reflexivity.
Defined.

(** ** The scenario of the snapshot *)

Example Open_a_txt :
  Open fs "/a.txt" = (Ok (FileHandle a_handle), [CallGetTreeEntryByPath "a.txt"]) /\
  FileInfo_Size (fst (ghfsFile_Stat a_handle)) = 4.
Proof. split; reflexivity. Qed.

Example Seek_2_then_read_cd :
  exists f1 f2 cs,
    ghfsFile_Seek 2 SEEK_SET a_handle = Some (2, None, f1, cs) /\
    read_all 5 4 f1 [] = Some ([x63; x64], None, f2) /\
    fst (fst (ghfsFile_Read 4 f2)) = ([], Some EOF).
Proof. do 3 eexists. repeat split. Qed.

Example Seek_past_the_end :
  exists f1 cs, ghfsFile_Seek 9 SEEK_SET a_handle = Some (4, Some EOF, f1, cs).
Proof. do 2 eexists. reflexivity. Qed.

Example Seek_on_damaged_blob :
  exists f1 cs,
    ghfsFile_Seek 2 SEEK_SET (fresh damaged (entryFileInfo damaged)) =
    Some (1, Some (LibError "unexpected end of object"), f1, cs).
Proof. do 2 eexists. reflexivity. Qed.

Example Close_hands_on_the_answer_of_the_stream :
  exists f1 f2 cs,
    ghfsFile_Read 1 (fresh hasty (entryFileInfo hasty)) =
      ([x61], None, f1, [CallBlobData; CallStreamRead 1]) /\
    ghfsFile_Close f1 =
      (Some (LibError "closed before the end"), fresh hasty (entryFileInfo hasty),
       [CallStreamClose]) /\
    ghfsFile_Seek 0 SEEK_SET f1 = Some (0, None, f2, cs) /\
    closes cs = 1%nat.
Proof. do 3 eexists. repeat split. Qed.

Example Open_dir :
  Open fs "/dir" =
    (Ok (DirHandle dir_handle),
     [CallGetTreeEntryByPath "dir"; CallSubTree "dir"; CallScanner]) /\
  fst (fst (ghfsDir_Readdir 10 dir_handle)) = [entryFileInfo b_txt] /\
  FileInfo_Name (entryFileInfo b_txt) = "b.txt" /\
  FileInfo_Size (entryFileInfo b_txt) = 1 /\
  FileInfo_IsDir (entryFileInfo b_txt) = false.
Proof. repeat split. Qed.

Example Open_missing :
  Open fs "/missing" =
    (Err (LibError "entry not found"), [CallGetTreeEntryByPath "missing"]).
Proof. reflexivity. Qed.

Example Indexed_Readdir_all :
  exists d1 fi1,
    GhfsIndexed.ghfsDir_Readdir (-1) indexed_dir = Some ([fi1], None, d1) /\
    GhfsIndexed.name fi1 = "b.txt" /\
    GhfsIndexed.ghfsDir_Readdir (-1) d1 = Some ([], Some EOF, d1) /\
    GhfsIndexed.ghfsDir_Readdir 1 d1 = Some ([], Some EOF, d1).
Proof. do 2 eexists. repeat split. Qed.

(** * Further properties *)

(** ** Any read of a positioned handle *)

(** The calls a [Read] makes before it turns to the stream. *)
Lemma Read_with_stream (buf : Z) (f : ghfsFile) (r : ReadCloser) :
  stream_of f r ->
  ghfsFile_Read buf f =
  Read_opened buf f r match rc f with None => [CallBlobData] | Some _ => [] end.
Proof.
  unfold ghfsFile_Read. intros [Hs | [Hs Hd]].
  - rewrite Hs. reflexivity.
  - rewrite Hs, Hd. reflexivity.
Qed.

(** A [Read] with any buffer on a handle whose upcoming bytes are known:
    what it delivers, what it reports and which calls it makes. *)
Lemma Read_upcoming_any (buf : Z) (f : ghfsFile) (p : list byte) :
  upcoming f = Ok p -> sound f -> 0 <= buf ->
  0 <= off f -> off f + len p <= int64_max ->
  exists data rest e f' cs,
    ghfsFile_Read buf f = (data, e, f', cs) /\
    p = data ++ rest /\ upcoming f' = Ok rest /\ sound f' /\
    off f' = off f + len data /\
    entry f' = entry f /\ fi f' = fi f /\ atEnd f' = atEnd f /\
    (exists r, rc f' = Some r) /\
    len data <= buf /\
    cs = match rc f with None => [CallBlobData] | Some _ => [] end ++
         (if atEnd f then [] else [CallStreamRead (len data)]) /\
    (atEnd f = true -> data = [] /\ e = Some EOF) /\
    (atEnd f = false -> p = [] -> data = [] /\ e = Some EOF) /\
    (atEnd f = false -> p <> [] -> e = None /\ (1 <= buf -> 1 <= len data)).
Proof.
  intros Hup Hsound Hbuf Hoff Hmax.
  pose proof (len_nonneg p) as Hp0.
  destruct (ghfsFile_Read_cases buf f) as [(x & Hn & Hb & Hr) | (r & c0 & Hs & Hr)].
  - unfold upcoming in Hup. rewrite Hn, Hb in Hup. discriminate.
  - destruct (stream_of_upcoming f r p Hs Hup Hsound) as [Hpend Hbr].
    clear Hr. pose proof (Read_with_stream buf f r Hs) as Hr.
    set (c0' := match rc f with None => [CallBlobData] | Some _ => [] end) in *.
    rewrite Hr.
    destruct (Read_opened_spec buf f r c0')
      as [(Ha & Ho) | [(Ha & Hp & Ho) | (Ha & Hp & Ho)]];
      cbv zeta in Ho; rewrite Ho, Ha; clear Ho.
    + exists [], p, (Some EOF). eexists; eexists. split; [reflexivity |].
      unfold upcoming, sound; simpl. change (len (@nil byte)) with 0.
      rewrite app_nil_r.
      repeat split; eauto; try congruence; try lia.
    + assert (Hnil : p = []) by congruence.
      exists [], [], (Some EOF). eexists; eexists. split.
      { unfold rc_end. rewrite Hbr. reflexivity. }
      unfold upcoming, sound, add64; simpl.
      rewrite Z.add_0_r, wrap64_id by int64_lia.
      change (len (@nil byte)) with 0.
      repeat split; eauto; try congruence; try lia.
    + set (k := Z.to_nat (Z.min buf (Z.pos (chunk r)))).
      exists (firstn k (pending r)), (skipn k (pending r)), None.
      eexists; eexists. split; [reflexivity |].
      pose proof (len_pos _ Hp) as Hpos.
      assert (Hlen : len (firstn k (pending r)) <= buf).
      { rewrite len_firstn. unfold k. lia. }
      assert (Hle : len (firstn k (pending r)) <= len p).
      { rewrite <- Hpend, len_firstn. lia. }
      pose proof (len_nonneg (firstn k (pending r))) as Hge.
      unfold upcoming, sound, add64; simpl.
      rewrite wrap64_id by int64_lia.
      repeat split; eauto; try lia; try congruence.
      * rewrite firstn_skipn. auto.
      * intros Hb1. rewrite len_firstn. unfold k. lia.
Qed.

(** ** The calls of a discarding copy *)

Lemma bytes_pulled_app (a b : list StoreCall) :
  bytes_pulled (a ++ b) = bytes_pulled a + bytes_pulled b.
Proof.
  induction a as [|c a IH]; simpl; [lia |].
  destruct c; rewrite IH; lia.
Qed.

Lemma opens_app (a b : list StoreCall) : opens (a ++ b) = (opens a + opens b)%nat.
Proof. unfold opens. rewrite filter_app, length_app. reflexivity. Qed.

Lemma closes_app (a b : list StoreCall) : closes (a ++ b) = (closes a + closes b)%nat.
Proof. unfold closes. rewrite filter_app, length_app. reflexivity. Qed.

(** [Discard.ReadFrom] with [N] bytes allowed consumes the first
    [min N (len p)] of the upcoming bytes [p], pulling exactly those off
    the stream; it opens the blob only if no stream was open, and closes
    nothing. *)
Lemma Discard_ReadFrom_consumes (fuel : nat) :
  forall (N : Z) (f : ghfsFile) (n : Z) (cs : list StoreCall) (p : list byte),
    upcoming f = Ok p -> sound f -> atEnd f = false ->
    0 <= off f -> off f + len p <= int64_max ->
    0 <= N -> (Z.to_nat N < fuel)%nat ->
    exists c rest f' cs',
      Discard_ReadFrom fuel N f n cs = Some (n + len c, None, f', cs ++ cs') /\
      p = c ++ rest /\ len c = Z.min N (len p) /\
      upcoming f' = Ok rest /\ sound f' /\ off f' = off f + len c /\
      entry f' = entry f /\ fi f' = fi f /\ atEnd f' = false /\
      bytes_pulled cs' = len c /\ closes cs' = O /\
      opens cs' = match rc f with
                  | Some _ => O
                  | None => if N =? 0 then O else 1%nat
                  end /\
      (N = 0 -> f' = f /\ cs' = []).
Proof.
  induction fuel as [|fuel IH];
    intros N f n cs p Hup Hsound Hend Hoff Hmax HN Hfuel; [lia |].
  pose proof (len_nonneg p) as Hp0.
  simpl. unfold LimitedReader_Read.
  destruct (N <=? 0) eqn:EN.
  - apply Z.leb_le in EN. assert (N = 0) by lia. subst N.
    exists [], p, f, []. change (len (@nil byte)) with 0.
    rewrite !Z.add_0_r, app_nil_r. simpl.
    repeat split; auto; try lia. destruct (rc f); reflexivity.
  - apply Z.leb_gt in EN.
    assert (HN0 : (N =? 0) = false) by (apply Z.eqb_neq; lia).
    set (q := if blackHoleSize >? N then N else blackHoleSize).
    assert (Hq : 1 <= q <= N).
    { unfold q, blackHoleSize. rewrite Z.gtb_ltb.
      destruct (N <? 8192) eqn:E; [lia |]. apply Z.ltb_ge in E. lia. }
    destruct (Read_upcoming_any q f p Hup Hsound) as
      (data & rest & e & f1 & c1 & Hrd & Hsplit & Hup1 & Hs1 & Ho1 & He1 & Hi1 & Ha1
       & (r1 & Hr1) & Hlen & Hc1 & _ & Hnil & Hne); try lia.
    rewrite Hrd. rewrite Hend in Hc1, Ha1.
    assert (Hopen1 : opens c1 = match rc f with Some _ => O | None => 1%nat end
                     /\ closes c1 = O /\ bytes_pulled c1 = len data).
    { rewrite Hc1. destruct (rc f); simpl; repeat split; lia. }
    destruct Hopen1 as (Hop1 & Hcl1 & Hby1).
    destruct p as [|b0 p0].
    + destruct (Hnil Hend eq_refl) as [-> ->].
      simpl in Hsplit. subst rest.
      exists [], [], f1, c1. change (len (@nil byte)) with 0 in *.
      rewrite HN0.
      repeat split; auto; try lia.
    + destruct (Hne Hend) as [-> Hpos]; [discriminate |].
      specialize (Hpos ltac:(lia)).
      assert (Hlp : len (b0 :: p0) = len data + len rest)
        by (rewrite Hsplit; apply len_app).
      destruct (IH (N - len data) f1 (n + len data) (cs ++ c1) rest Hup1 Hs1 Ha1)
        as (c & rest' & f' & cs' & Hrun & Hsplit' & Hc & Hup' & Hs' & Ho' & He' & Hi'
            & Ha' & Hby & Hcl & Hop & _); try lia.
      rewrite Hr1 in Hop.
      exists (data ++ c), rest', f', (c1 ++ cs').
      rewrite Hrun. rewrite <- app_assoc, len_app, Z.add_assoc.
      rewrite bytes_pulled_app, opens_app, closes_app, HN0.
      repeat split; try congruence; try lia.
      * rewrite Hsplit, Hsplit', app_assoc. reflexivity.
Qed.

Lemma CopyN_Discard_consumes (f : ghfsFile) (N : Z) (p : list byte) :
  upcoming f = Ok p -> sound f -> atEnd f = false ->
  0 <= off f -> off f + len p <= int64_max -> 0 <= N ->
  exists c rest f' cs,
    CopyN_Discard f N =
      Some (len c, (if N <=? len p then None else Some EOF), f', cs) /\
    p = c ++ rest /\ len c = Z.min N (len p) /\
    upcoming f' = Ok rest /\ sound f' /\ off f' = off f + len c /\
    entry f' = entry f /\ fi f' = fi f /\ atEnd f' = false /\
    bytes_pulled cs = len c /\ closes cs = O /\
    opens cs = match rc f with
               | Some _ => O
               | None => if N =? 0 then O else 1%nat
               end /\
    (N = 0 -> f' = f /\ cs = []).
Proof.
  intros Hup Hsound Hend Hoff Hmax HN. unfold CopyN_Discard.
  destruct (Discard_ReadFrom_consumes (S (Z.to_nat N)) N f 0 [] p
              Hup Hsound Hend Hoff Hmax HN)
    as (c & rest & f' & cs' & Hrun & Hsplit & Hc & Hrest); [lia |].
  rewrite Hrun. simpl.
  exists c, rest, f', cs'.
  split; [| split; [exact Hsplit | split; [exact Hc | exact Hrest]]].
  destruct (N <=? len p) eqn:Ele.
  - apply Z.leb_le in Ele. assert (E : len c = N) by lia.
    rewrite E, Z.eqb_refl. reflexivity.
  - apply Z.leb_gt in Ele.
    assert (E : (len c =? N) = false) by (apply Z.eqb_neq; lia).
    assert (E' : (len c <? N) = true) by (apply Z.ltb_lt; lia).
    rewrite E, E'. reflexivity.
Qed.

(** ** Seeking anywhere *)

(** What the second half of [Seek] does on a positioned handle for any
    target that is not negative: it stops at the target or at the end of
    the data, whichever comes first, and reports [io.EOF] in the second
    case; a backward seek closes the stream once and replays [noff]
    bytes, a forward seek pulls the distance off the stream it has. *)
Lemma Seek_to_positioned (data : list byte) (noff : Z) (f : ghfsFile) :
  positioned data f -> 0 <= noff <= int64_max ->
  exists f' cs,
    Seek_to noff f =
      Some (Z.min noff (len data),
            (if noff <=? len data then None else Some EOF), f', cs) /\
    positioned data f' /\ off f' = Z.min noff (len data) /\ atEnd f' = false /\
    closes cs = (if noff <? off f then 1%nat else O) /\
    bytes_pulled cs = (if noff <? off f then noff
                       else Z.min noff (len data) - off f) /\
    opens cs = (if noff <? off f then (if noff =? 0 then O else 1%nat)
                else match rc f with
                     | Some _ => O
                     | None => if noff =? off f then O else 1%nat
                     end) /\
    (noff = off f -> f' = with_atEnd f false /\ cs = []).
Proof.
  intros Hpos Hn.
  pose proof Hpos as (Hb & Hmax & Hoff & Hup & Hs).
  pose proof (len_nonneg data) as Hd0.
  unfold Seek_to.
  assert (Hneg : (noff <? 0) = false) by (apply Z.ltb_ge; lia).
  rewrite Hneg. cbn [off with_atEnd].
  destruct (noff <? off f) eqn:Eback.
  - apply Z.ltb_lt in Eback.
    destruct (positioned_open_stream data f Hpos ltac:(lia)) as [r Hr].
    rewrite Close_spec. cbn [entry fi rc atEnd with_atEnd]. fold (unopened f).
    rewrite Hr.
    destruct (positioned_unopened data f Hpos) as (Hup0 & Hs0 & Hpos0).
    destruct (CopyN_Discard_consumes (unopened f) noff data Hup0 Hs0 eq_refl)
      as (c & rest & f1 & cs & Hcopy & Hsplit & Hc & Hup1 & Hs1 & Ho1 & He1 & Hi1 & Ha1
          & Hby & Hcl & Hop & _);
      simpl; try lia.
    rewrite Hcopy. simpl in Ho1, Hop.
    assert (Hle : (noff <=? len data) = true) by (apply Z.leb_le; lia).
    assert (Hlc : len c = noff) by lia.
    rewrite Hle, Hlc.
    replace (Z.min noff (len data)) with noff by lia.
    assert (Hpos1 : positioned data f1).
    { apply (positioned_step data (unopened f) f1 c rest Hpos0); auto. }
    exists f1, ([CallStreamClose] ++ cs). split; [reflexivity |].
    rewrite bytes_pulled_app, closes_app, opens_app. simpl.
    split; [exact Hpos1 |].
    repeat split; try lia; auto.
  - apply Z.ltb_ge in Eback.
    assert (Hsub : sub64 noff (off f) = noff - off f).
    { unfold sub64. apply wrap64_id. int64_lia. }
    rewrite Hsub.
    assert (Hlenp : len (skipn (Z.to_nat (off f)) data) = len data - off f).
    { rewrite len_skipn. lia. }
    destruct (CopyN_Discard_consumes (with_atEnd f false) (noff - off f)
                (skipn (Z.to_nat (off f)) data))
      as (c & rest & f1 & cs & Hcopy & Hsplit & Hc & Hup1 & Hs1 & Ho1 & He1 & Hi1 & Ha1
          & Hby & Hcl & Hop & Hsame);
      auto; try (simpl; lia).
    rewrite Hcopy. simpl in Ho1, He1, Hop. rewrite Hlenp in *.
    assert (Hat : off f1 = Z.min noff (len data)) by lia.
    assert (Herr : (noff - off f <=? len data - off f) = (noff <=? len data)).
    { destruct (noff <=? len data) eqn:E.
      - apply Z.leb_le in E. apply Z.leb_le. lia.
      - apply Z.leb_gt in E. apply Z.leb_gt. lia. }
    rewrite Herr, Hat.
    assert (Hpos1 : positioned data f1).
    { apply (positioned_step data f f1 c rest Hpos); auto. }
    assert (Hop1 : opens cs = match rc f with
                              | Some _ => O
                              | None => if noff =? off f then O else 1%nat
                              end).
    { rewrite Hop. destruct (rc f); [reflexivity |].
      destruct (noff - off f =? 0) eqn:E1; destruct (noff =? off f) eqn:E2;
        try reflexivity.
      - apply Z.eqb_eq in E1. apply Z.eqb_neq in E2. lia.
      - apply Z.eqb_neq in E1. apply Z.eqb_eq in E2. lia. }
    exists f1, cs. split; [reflexivity |].
    split; [exact Hpos1 |].
    repeat split; auto; try lia; apply Hsame; lia.
Qed.

Lemma firstn_length_app {A : Type} (a b : list A) :
  firstn (List.length a) (a ++ b) = a.
Proof. induction a as [|x a IH]; simpl; [reflexivity | rewrite IH; reflexivity]. Qed.

(** Positioned, for a handle written out in full. *)
Ltac concrete_positioned :=
  unfold positioned; repeat split;
  first [ reflexivity
        | eexists; repeat split; reflexivity
        | vm_compute; discriminate ].

(** Any [Read] keeps a positioned handle positioned, over the same entry. *)
Lemma positioned_Read_any
    (data : list byte) (buf : Z) (f : ghfsFile) d e f' cs :
  positioned data f -> 0 <= buf ->
  ghfsFile_Read buf f = (d, e, f', cs) ->
  positioned data f' /\ entry f' = entry f /\ fi f' = fi f.
Proof.
  intros Hpos Hbuf Hrd.
  pose proof Hpos as (Hb & Hmax & Hoff & Hup & Hs).
  destruct (Read_upcoming_any buf f _ Hup Hs Hbuf) as
    (d0 & rest & e0 & f0 & c0 & Hrd0 & Hsplit & Hup0 & Hs0 & Ho0 & He0 & Hi0 & _);
    try lia.
  { rewrite len_skipn. lia. }
  rewrite Hrd0 in Hrd. inversion Hrd. subst d e f' cs.
  split; [| split; assumption].
  apply (positioned_step data f f0 d0 rest Hpos); auto.
Qed.

(** X1.  A [Read] with any buffer on a positioned handle delivers the
    bytes of the blob that start at the offset, at most a bufferful of
    them, and advances the offset by their number; the handle stays
    positioned.  The only error is [io.EOF]: a handle at its end reports
    it at once, any other handle reports it exactly when the offset is at
    the end of the data, and before that a non-empty buffer receives at
    least one byte.  The call opens the blob only if no stream was open,
    and closes nothing. *)
Theorem Read_delivers_next_bytes
    (data : list byte) (buf : Z) (f : ghfsFile) d e f' cs :
  positioned data f -> 0 <= buf ->
  ghfsFile_Read buf f = (d, e, f', cs) ->
  positioned data f' /\ off f' = off f + len d /\ len d <= buf /\
  d = firstn (List.length d) (skipn (Z.to_nat (off f)) data) /\
  (e = None \/ e = Some EOF) /\
  (atEnd f = true -> d = [] /\ e = Some EOF) /\
  (atEnd f = false -> (e = Some EOF <-> off f = len data)) /\
  (atEnd f = false -> off f < len data -> 1 <= buf -> 1 <= len d) /\
  opens cs = match rc f with None => 1%nat | Some _ => O end /\
  closes cs = O.
Proof.
  intros Hpos Hbuf Hrd.
  pose proof Hpos as (Hb & Hmax & Hoff & Hup & Hs).
  assert (Hlenp : len (skipn (Z.to_nat (off f)) data) = len data - off f).
  { rewrite len_skipn. lia. }
  destruct (Read_upcoming_any buf f _ Hup Hs Hbuf) as
    (d0 & rest & e0 & f0 & c0 & Hrd0 & Hsplit & Hup0 & Hs0 & Ho0 & He0 & Hi0 & Ha0
     & _ & Hlen & Hc0 & Hend & Hnil & Hne); try lia.
  rewrite Hrd0 in Hrd. inversion Hrd. subst d e f' cs. clear Hrd.
  assert (Hpos' : positioned data f0).
  { apply (positioned_step data f f0 d0 rest Hpos); auto. }
  assert (Hfirst : d0 = firstn (List.length d0) (skipn (Z.to_nat (off f)) data)).
  { rewrite Hsplit. symmetry. apply firstn_length_app. }
  assert (Hlp : len data - off f = len d0 + len rest).
  { rewrite <- Hlenp, Hsplit. apply len_app. }
  pose proof (len_nonneg rest) as Hr0. pose proof (len_nonneg d0) as Hd0.
  assert (Herr : e0 = None \/ e0 = Some EOF).
  { destruct (atEnd f) eqn:Ea.
    - right. apply Hend; reflexivity.
    - destruct (skipn (Z.to_nat (off f)) data) eqn:Ep.
      + right. apply Hnil; reflexivity.
      + left. apply Hne; [reflexivity | discriminate]. }
  split; [exact Hpos' |]. split; [exact Ho0 |]. split; [exact Hlen |].
  split; [exact Hfirst |]. split; [exact Herr |]. split; [exact Hend |].
  split; [| split; [| split]].
  - intros Ea. destruct (skipn (Z.to_nat (off f)) data) as [|b0 p0] eqn:Ep.
    + destruct (Hnil Ea eq_refl) as [_ ->].
      change (len (@nil byte)) with 0 in Hlenp. split; [lia | reflexivity].
    + destruct (Hne Ea) as [-> _]; [discriminate |].
      assert (1 <= len (b0 :: p0)) by (apply len_pos; discriminate).
      split; [discriminate | lia].
  - intros Ea Hlt Hb1.
    destruct (skipn (Z.to_nat (off f)) data) as [|b0 p0] eqn:Ep.
    + change (len (@nil byte)) with 0 in Hlenp. lia.
    + destruct (Hne Ea) as [_ H1]; [discriminate |]. apply H1. exact Hb1.
  - rewrite Hc0. destruct (rc f); destruct (atEnd f); reflexivity.
  - rewrite Hc0. destruct (rc f); destruct (atEnd f); reflexivity.
Qed.

Lemma Read_delivers_next_bytes_witness :
  positioned abcd a_after_read /\ off a_after_read = 0 + 3 /\ 3 <= 3 /\
  [x61; x62; x63] = firstn 3 (skipn 0 abcd).
Proof.
  destruct (Read_delivers_next_bytes abcd 3 a_handle
              [x61; x62; x63] None a_after_read [CallBlobData; CallStreamRead 3])
    as (H1 & H2 & H3 & H4 & _).
  - concrete_positioned.
  - lia.
  - reflexivity.
  - split; [exact H1 | split; [exact H2 | split; [exact H3 | exact H4]]].
Defined.

(** [Seek] enters its second half with the target, unless the call is the
    size probe: offset 0 from the end (or from the current offset of a
    handle at its end). *)
Lemma Seek_is_Seek_to (f : ghfsFile) (offset whence noff : Z) :
  seek_target f offset whence = Some noff ->
  whence = SEEK_SET \/ offset <> 0 \/ (whence = SEEK_CUR /\ atEnd f = false) ->
  ghfsFile_Seek offset whence f = Seek_to noff f.
Proof.
  unfold seek_target, ghfsFile_Seek. intros Ht Hcase.
  destruct (whence =? SEEK_SET) eqn:E0.
  - apply Z.eqb_eq in E0. subst whence. simpl. inversion Ht; reflexivity.
  - destruct (whence =? SEEK_CUR) eqn:E1.
    + apply Z.eqb_eq in E1. subst whence.
      destruct (atEnd f) eqn:Ea; simpl; inversion Ht; subst.
      * destruct Hcase as [H | [H | [_ H]]]; try discriminate.
        apply Z.eqb_neq in H. rewrite H. reflexivity.
      * reflexivity.
    + simpl. rewrite E0, E1.
      destruct (whence =? SEEK_END) eqn:E2; [| discriminate].
      inversion Ht; subst.
      destruct Hcase as [H | [H | [H _]]].
      * subst whence. discriminate.
      * apply Z.eqb_neq in H. rewrite H. reflexivity.
      * subst whence. discriminate.
Qed.

Lemma seek_target_in_int64 (f : ghfsFile) (offset whence noff : Z) :
  in_int64 offset -> seek_target f offset whence = Some noff -> in_int64 noff.
Proof.
  unfold seek_target. intros Ho.
  destruct (whence =? SEEK_SET); [intros H; inversion H; subst; exact Ho |].
  destruct (whence =? SEEK_CUR).
  { destruct (atEnd f); intros H; inversion H; apply wrap64_range. }
  destruct (whence =? SEEK_END); [| discriminate].
  intros H; inversion H; apply wrap64_range.
Qed.

(** X2.  On a positioned handle a seek to a target inside the data, from
    the start, from the current offset or from the end, forward or
    backward, returns the target without an error and leaves the handle
    positioned there: reading on to the end yields the blob's bytes from
    the target on.  (The size probe, offset 0 from the end, is apart: it
    does not move the stream.) *)
Theorem Seek_inside_data_is_random_access
    (data : list byte) (f : ghfsFile) (offset whence noff buf : Z) :
  positioned data f -> in_int64 offset ->
  seek_target f offset whence = Some noff -> 0 <= noff <= len data ->
  whence = SEEK_SET \/ offset <> 0 \/ (whence = SEEK_CUR /\ atEnd f = false) ->
  1 <= buf ->
  exists f1 cs f2,
    ghfsFile_Seek offset whence f = Some (noff, None, f1, cs) /\
    positioned data f1 /\ off f1 = noff /\ atEnd f1 = false /\
    read_all (S (List.length data)) buf f1 [] =
      Some (skipn (Z.to_nat noff) data, None, f2).
Proof.
  intros Hpos Hofs Ht Hn Hcase Hbuf.
  pose proof Hpos as (_ & Hmax & _).
  rewrite (Seek_is_Seek_to f offset whence noff Ht Hcase).
  destruct (Seek_to_positioned data noff f Hpos) as
    (f1 & cs & Hrun & Hpos1 & Ho1 & Ha1 & _); [lia |].
  assert (Hle : (noff <=? len data) = true) by (apply Z.leb_le; lia).
  rewrite Hle in Hrun. replace (Z.min noff (len data)) with noff in * by lia.
  pose proof Hpos1 as (_ & _ & Hoff1 & Hup1 & Hs1).
  rewrite Ho1 in Hup1.
  destruct (read_all_upcoming (S (List.length data)) buf f1 _ [] Hup1 Hs1 Ha1 Hbuf)
    as (f2 & Hall & _).
  - lia.
  - rewrite len_skipn. lia.
  - rewrite length_skipn. lia.
  - exists f1, cs, f2.
    split; [exact Hrun |]. split; [exact Hpos1 |]. split; [exact Ho1 |].
    split; [exact Ha1 | exact Hall].
Qed.

Lemma Seek_inside_data_is_random_access_witness :
  exists f1 cs f2,
    ghfsFile_Seek (-2) SEEK_CUR a_after_read = Some (1, None, f1, cs) /\
    positioned abcd f1 /\ off f1 = 1 /\ atEnd f1 = false /\
    read_all 5 2 f1 [] = Some ([x62; x63; x64], None, f2).
Proof.
  apply (Seek_inside_data_is_random_access abcd a_after_read (-2) SEEK_CUR 1 2).
  - concrete_positioned.
  - int64_lia.
  - reflexivity.
  - vm_compute. split; discriminate.
  - right; left. discriminate.
  - lia.
Defined.

(** X3.  On a positioned handle a seek to a target beyond the data reads
    the stream dry and fails with [io.EOF]; the offset it returns and
    leaves is the length of the data, and the next [Read] reports
    [io.EOF] with no bytes. *)
Theorem Seek_beyond_data_stops_at_end
    (data : list byte) (f : ghfsFile) (offset whence noff buf : Z) :
  positioned data f -> in_int64 offset ->
  seek_target f offset whence = Some noff -> len data < noff ->
  whence = SEEK_SET \/ offset <> 0 \/ (whence = SEEK_CUR /\ atEnd f = false) ->
  0 <= buf ->
  exists f1 cs f2 cs2,
    ghfsFile_Seek offset whence f = Some (len data, Some EOF, f1, cs) /\
    positioned data f1 /\ off f1 = len data /\ atEnd f1 = false /\
    ghfsFile_Read buf f1 = ([], Some EOF, f2, cs2) /\ off f2 = len data.
Proof.
  intros Hpos Hofs Ht Hn Hcase Hbuf.
  pose proof Hpos as (_ & Hmax & _).
  pose proof (len_nonneg data) as Hd0.
  pose proof (seek_target_in_int64 f offset whence noff Hofs Ht) as Hin.
  rewrite (Seek_is_Seek_to f offset whence noff Ht Hcase).
  destruct (Seek_to_positioned data noff f Hpos) as
    (f1 & cs & Hrun & Hpos1 & Ho1 & Ha1 & _); [int64_lia |].
  assert (Hle : (noff <=? len data) = false) by (apply Z.leb_gt; lia).
  rewrite Hle in Hrun. replace (Z.min noff (len data)) with (len data) in * by lia.
  pose proof Hpos1 as (_ & _ & _ & Hup1 & Hs1).
  rewrite Ho1 in Hup1. unfold len in Hup1. rewrite Nat2Z.id, skipn_all in Hup1.
  destruct (Read_upcoming_any buf f1 [] Hup1 Hs1 Hbuf) as
    (d & rest & e & f2 & cs2 & Hrd & _ & _ & _ & Ho2 & _ & _ & _ & _ & _ & _ & _ & Hnil & _).
  { lia. }
  { change (len (@nil byte)) with 0. lia. }
  destruct (Hnil Ha1 eq_refl) as [-> ->].
  exists f1, cs, f2, cs2.
  split; [exact Hrun |]. split; [exact Hpos1 |]. split; [exact Ho1 |].
  split; [exact Ha1 |]. split; [exact Hrd |].
  rewrite Ho2, Ho1. change (len (@nil byte)) with 0. lia.
Qed.

Lemma Seek_beyond_data_stops_at_end_witness :
  exists f1 cs f2 cs2,
    ghfsFile_Seek 9 SEEK_SET a_handle = Some (4, Some EOF, f1, cs) /\
    positioned abcd f1 /\ off f1 = 4 /\ atEnd f1 = false /\
    ghfsFile_Read 2 f1 = ([], Some EOF, f2, cs2) /\ off f2 = 4.
Proof.
  apply (Seek_beyond_data_stops_at_end abcd a_handle 9 SEEK_SET 9 2).
  - concrete_positioned.
  - int64_lia.
  - reflexivity.
  - vm_compute. reflexivity.
  - left. reflexivity.
  - lia.
Defined.

(** X4.  What a seek from the start costs on a positioned handle.  A
    backward seek closes the stream once, opens the blob once more
    (unless the target is 0) and pulls exactly [noff] bytes; a forward
    seek closes nothing, opens the blob only if no stream was open yet,
    and pulls exactly the distance to the target, or to the end of the
    data when the target lies beyond it. *)
Theorem Seek_cost_is_the_distance (data : list byte) (f : ghfsFile) (noff : Z) :
  positioned data f -> 0 <= noff <= int64_max ->
  exists n e f1 cs,
    ghfsFile_Seek noff SEEK_SET f = Some (n, e, f1, cs) /\
    (noff < off f ->
     closes cs = 1%nat /\ opens cs = (if noff =? 0 then O else 1%nat) /\
     bytes_pulled cs = noff) /\
    (off f <= noff ->
     closes cs = O /\
     opens cs = match rc f with
                | Some _ => O
                | None => if noff =? off f then O else 1%nat
                end /\
     bytes_pulled cs = Z.min noff (len data) - off f).
Proof.
  intros Hpos Hn.
  destruct (Seek_to_positioned data noff f Hpos Hn) as
    (f1 & cs & Hrun & _ & _ & _ & Hcl & Hby & Hop & _).
  change (ghfsFile_Seek noff SEEK_SET f) with (Seek_to noff f).
  rewrite Hrun. do 4 eexists. split; [reflexivity |].
  split; intros Hdir.
  - apply Z.ltb_lt in Hdir. rewrite Hdir in *. auto.
  - apply Z.ltb_ge in Hdir. rewrite Hdir in *. auto.
Qed.

Lemma Seek_cost_is_the_distance_witness :
  exists n e f1 cs,
    ghfsFile_Seek 1 SEEK_SET a_after_read = Some (n, e, f1, cs) /\
    (1 < off a_after_read ->
     closes cs = 1%nat /\ opens cs = 1%nat /\ bytes_pulled cs = 1) /\
    (off a_after_read <= 1 ->
     closes cs = O /\ opens cs = O /\
     bytes_pulled cs = Z.min 1 (len abcd) - off a_after_read).
Proof.
  apply (Seek_cost_is_the_distance abcd a_after_read 1).
  - concrete_positioned.
  - int64_lia.
Defined.

Lemma CopyN_Discard_nothing (f : ghfsFile) : CopyN_Discard f 0 = Some (0, None, f, []).
Proof. reflexivity. Qed.

Lemma with_atEnd_same (f : ghfsFile) (b : bool) :
  atEnd f = b -> with_atEnd f b = f.
Proof. destruct f; simpl; intros ->; reflexivity. Qed.

(** X5.  Asking for the size and coming back is free.  On a handle that
    is not at its end, [Seek(0, SEEK_END)] returns the declared size and
    only marks the handle; a following [Seek] to the offset the handle
    has gives back exactly the handle as it was; and [Seek(0, SEEK_CUR)]
    returns the offset and changes nothing.  None of the three calls
    reaches the store. *)
Theorem size_probe_and_back_is_free (f : ghfsFile) :
  atEnd f = false -> 0 <= off f <= int64_max ->
  ghfsFile_Seek 0 SEEK_END f = Some (Size (entry f), None, with_atEnd f true, []) /\
  ghfsFile_Seek (off f) SEEK_SET (with_atEnd f true) = Some (off f, None, f, []) /\
  ghfsFile_Seek 0 SEEK_CUR f = Some (off f, None, f, []).
Proof.
  intros Ha Hoff.
  assert (Hto : forall g, off g = off f -> with_atEnd g false = f ->
                Seek_to (off f) g = Some (off f, None, f, [])).
  { intros g Hg Hgf. unfold Seek_to. rewrite Hgf.
    assert (H1 : (off f <? 0) = false) by (apply Z.ltb_ge; lia).
    assert (H2 : (off f <? off f) = false) by (apply Z.ltb_ge; lia).
    rewrite H1, H2.
    assert (H3 : sub64 (off f) (off f) = 0).
    { unfold sub64. rewrite Z.sub_diag. reflexivity. }
    rewrite H3, CopyN_Discard_nothing. reflexivity. }
  split; [reflexivity |]. split.
  - change (ghfsFile_Seek (off f) SEEK_SET (with_atEnd f true))
      with (Seek_to (off f) (with_atEnd f true)).
    apply Hto; [reflexivity |].
    destruct f; simpl in *; subst; reflexivity.
  - unfold ghfsFile_Seek. rewrite Ha. simpl.
    assert (H0 : add64 (off f) 0 = off f).
    { unfold add64. rewrite Z.add_0_r. apply wrap64_id. int64_lia. }
    rewrite H0. apply Hto; [reflexivity |]. apply with_atEnd_same. exact Ha.
Qed.

Lemma size_probe_and_back_is_free_witness :
  ghfsFile_Seek 0 SEEK_END a_after_read
    = Some (4, None, with_atEnd a_after_read true, []) /\
  ghfsFile_Seek 3 SEEK_SET (with_atEnd a_after_read true)
    = Some (3, None, a_after_read, []) /\
  ghfsFile_Seek 0 SEEK_CUR a_after_read = Some (3, None, a_after_read, []).
Proof.
  apply (size_probe_and_back_is_free a_after_read).
  - reflexivity.
  - simpl. int64_lia.
Defined.

(** X6.  Closing twice is closing once: the first [Close] hands on what
    the stream answers to its closing (nil when the handle has no stream)
    and leaves the handle without a stream at offset 0, having closed the
    stream if there was one; a second [Close] returns nil, changes
    nothing and closes nothing. *)
Theorem Close_twice_closes_once (f : ghfsFile) :
  exists f1 cs1,
    ghfsFile_Close f =
      (match rc f with Some r => rc_Close r | None => None end, f1, cs1) /\
    rc f1 = None /\ off f1 = 0 /\ atEnd f1 = atEnd f /\
    entry f1 = entry f /\ fi f1 = fi f /\
    closes cs1 = match rc f with Some _ => 1%nat | None => O end /\
    ghfsFile_Close f1 = (None, f1, []).
Proof.
  rewrite Close_spec. eexists; eexists. split; [reflexivity |].
  rewrite Close_spec. simpl. repeat split. destruct (rc f); reflexivity.
Qed.

(** ** The invariant of a file handle *)

Lemma positioned_with_atEnd (data : list byte) (f : ghfsFile) (b : bool) :
  positioned data f -> positioned data (with_atEnd f b).
Proof. intros H. exact H. Qed.

(** Every [Seek] of a positioned handle returns and keeps it positioned. *)
Lemma positioned_Seek (data : list byte) (f : ghfsFile) (offset whence : Z) :
  positioned data f -> in_int64 offset ->
  exists n e f' cs,
    ghfsFile_Seek offset whence f = Some (n, e, f', cs) /\
    positioned data f' /\ entry f' = entry f /\ fi f' = fi f.
Proof.
  intros Hpos Hofs.
  assert (Hto : forall noff, in_int64 noff ->
    exists n e f' cs,
      Seek_to noff f = Some (n, e, f', cs) /\
      positioned data f' /\ entry f' = entry f /\ fi f' = fi f).
  { intros noff Hin. destruct (Z.ltb_spec noff 0) as [Hneg | Hge].
    - unfold Seek_to. apply Z.ltb_lt in Hneg. rewrite Hneg.
      do 4 eexists. split; [reflexivity |].
      split; [apply positioned_with_atEnd; exact Hpos | split; reflexivity].
    - destruct (Seek_to_returns noff f) as (n & e & f' & cs & Hrun & _ & _ & He & Hi & _).
      { destruct Hpos as (_ & Hmax & Hoff & _). lia. }
      { unfold in_int64 in Hin. lia. }
      destruct (Seek_to_positioned data noff f Hpos) as
        (f1 & cs1 & Hrun1 & Hpos1 & _).
      { unfold in_int64 in Hin. lia. }
      rewrite Hrun in Hrun1. inversion Hrun1; subst.
      exists (Z.min noff (len data)), (if noff <=? len data then None else Some EOF), f1, cs1.
      split; [exact Hrun |]. split; [exact Hpos1 | split; assumption]. }
  unfold ghfsFile_Seek.
  set (w := if (whence =? SEEK_CUR) && atEnd f then SEEK_END else whence).
  destruct (w =? SEEK_SET); [apply Hto; exact Hofs |].
  destruct (w =? SEEK_CUR); [apply Hto; apply wrap64_range |].
  destruct (w =? SEEK_END).
  - destruct (offset =? 0); [| apply Hto; apply wrap64_range].
    do 4 eexists. split; [reflexivity |].
    split; [apply positioned_with_atEnd; exact Hpos | split; reflexivity].
  - do 4 eexists. split; [reflexivity |].
    split; [exact Hpos | split; reflexivity].
Qed.

(** X7.  The offset of a handle is the position of its stream, whatever
    the caller does: starting from a positioned handle (such as the one
    [NewFile] builds over a readable, undamaged blob), every sequence of
    [Read], [Seek] and [Close] calls, with any buffer lengths, offsets
    and [whence] values, returns and leaves a positioned handle over the
    same entry: [0 <= off <= len data], and the next bytes delivered are
    the blob's bytes from [off] on. *)
Theorem positioned_after_any_calls
    (data : list byte) (calls : list FileCall) (f : ghfsFile) :
  positioned data f -> Forall call_ok calls ->
  exists f',
    do_calls calls f = Some f' /\
    positioned data f' /\ entry f' = entry f /\ fi f' = fi f /\
    0 <= off f' <= len data /\
    upcoming f' = Ok (skipn (Z.to_nat (off f')) data).
Proof.
  intros Hpos Hok. revert f Hpos.
  induction Hok as [|c calls Hc Hok IH]; intros f Hpos.
  - exists f. simpl. repeat split; auto; apply Hpos.
  - assert (Hstep : exists f1, do_call c f = Some f1 /\ positioned data f1 /\
                               entry f1 = entry f /\ fi f1 = fi f).
    { destruct c as [buf | offset whence |]; simpl in *.
      - destruct (ghfsFile_Read buf f) as [[[d e] f1] cs] eqn:Hrd.
        destruct (positioned_Read_any data buf f d e f1 cs Hpos Hc Hrd)
          as (Hp1 & He1 & Hi1).
        exists f1. auto.
      - destruct (positioned_Seek data f offset whence Hpos Hc)
          as (n & e & f1 & cs & Hrun & Hp1 & He1 & Hi1).
        rewrite Hrun. exists f1. auto.
      - pose proof (positioned_Close data f Hpos) as Hp1.
        rewrite Close_spec in *. simpl in *. eexists. split; [reflexivity |].
        split; [exact Hp1 | split; reflexivity]. }
    destruct Hstep as (f1 & Hdo & Hp1 & He1 & Hi1).
    destruct (IH f1 Hp1) as (f' & Hrun & Hp' & He' & Hi' & Hrest).
    exists f'. simpl. rewrite Hdo.
    split; [exact Hrun |]. split; [exact Hp' |].
    split; [congruence |]. split; [congruence | exact Hrest].
Qed.

Lemma positioned_after_any_calls_witness :
  exists f',
    do_calls [DoRead 3; DoSeek 9 SEEK_SET; DoClose; DoSeek (-1) 7; DoSeek (-3) SEEK_END;
              DoRead 0; DoRead 2] a_handle = Some f' /\
    positioned abcd f' /\ entry f' = a_txt /\
    fi f' = modTimeFileInfo a_txt 1430000000 /\
    0 <= off f' <= len abcd /\
    upcoming f' = Ok (skipn (Z.to_nat (off f')) abcd).
Proof.
  apply (positioned_after_any_calls abcd
           [DoRead 3; DoSeek 9 SEEK_SET; DoClose; DoSeek (-1) 7; DoSeek (-3) SEEK_END;
            DoRead 0; DoRead 2] a_handle).
  - concrete_positioned.
  - repeat constructor; simpl; int64_lia.
Defined.

(** ** Opening a path *)

(** What [Open] does, branch by branch. *)
Lemma Open_cases (fs : ghfs) (name : string) :
  let n := trim_slash name in
  let when := Author_When (fs_commit fs) in
  (n = EmptyString /\ Open fs name = NewDir (fs_tree fs) rootFileInfo) \/
  (n <> EmptyString /\ exists x,
     GetTreeEntryByPath (fs_tree fs) n = Err x /\
     Open fs name = (Err x, [CallGetTreeEntryByPath n])) \/
  (n <> EmptyString /\ exists e,
     GetTreeEntryByPath (fs_tree fs) n = Ok e /\
     ((EntryType e = ObjectBlob /\
       Open fs name = (Ok (FileHandle (fresh e (modTimeFileInfo e when))),
                       [CallGetTreeEntryByPath n])) \/
      (EntryType e = ObjectTree /\ exists x,
       SubTree (fs_tree fs) n = Err x /\
       Open fs name = (Err x, [CallGetTreeEntryByPath n; CallSubTree n])) \/
      (EntryType e = ObjectTree /\ exists t,
       SubTree (fs_tree fs) n = Ok t /\
       Open fs name =
         (fst (NewDir t (modTimeFileInfo e when)),
          [CallGetTreeEntryByPath n; CallSubTree n; CallScanner])) \/
      (EntryType e <> ObjectBlob /\ EntryType e <> ObjectTree /\
       Open fs name = (Err (ErrorString "Invalid type"),
                       [CallGetTreeEntryByPath n])))).
Proof.
  cbv zeta. unfold Open.
  destruct (String.eqb (trim_slash name) EmptyString) eqn:En.
  - left. apply String.eqb_eq in En. auto.
  - right. apply String.eqb_neq in En.
    destruct (GetTreeEntryByPath (fs_tree fs) (trim_slash name)) as [e|x] eqn:Eg.
    + right. split; [exact En |]. exists e. split; [reflexivity |].
      destruct (EntryType e) eqn:Et.
      * right; right; right. repeat split; discriminate.
      * destruct (SubTree (fs_tree fs) (trim_slash name)) as [t|x] eqn:Es.
        -- right; right; left. split; [reflexivity |]. exists t.
           split; [reflexivity |].
           unfold NewDir. destruct (Tree_Scanner t); reflexivity.
        -- right; left. split; [reflexivity |]. exists x. auto.
      * left. auto.
      * right; right; right. repeat split; discriminate.
    + left. split; [exact En |]. exists x. auto.
Qed.

Lemma NewDir_cases (t : Tree) (i : FileInfo) :
  (exists sc, Tree_Scanner t = Ok sc /\
     NewDir t i = (Ok (DirHandle {| d_tree := t; d_fi := i; d_scanner := sc |}),
                   [CallScanner])) \/
  (exists x, Tree_Scanner t = Err x /\ NewDir t i = (Err x, [CallScanner])).
Proof.
  unfold NewDir. destruct (Tree_Scanner t) as [sc|x]; [left | right]; eauto.
Qed.

(** X8.  [Open] is lazy: whatever the path and whatever the store
    answers, it opens no blob stream, reads none and closes none. *)
Theorem Open_never_touches_a_blob (fs : ghfs) (name : string) :
  existsb is_stream_call (snd (Open fs name)) = false.
Proof.
  destruct (Open_cases fs name) as
    [[_ H] | [(_ & x & _ & H) | (_ & e & _ & [[_ H] | [(_ & x & _ & H)
     | [(_ & t & _ & H) | (_ & _ & H)]]])]]; rewrite H; try reflexivity.
  destruct (NewDir_cases (fs_tree fs) rootFileInfo) as [(sc & _ & H') | (x & _ & H')];
    rewrite H'; reflexivity.
Qed.

(** X9.  A file handle comes only from a blob: when [Open] returns a
    file handle, the path without its leading slash is not empty and
    resolves to an entry of type blob; the handle is the unopened one
    over that entry (no stream, offset 0, not at its end), its [Stat]
    is that entry with the commit's author time, and the one call made
    to the store is the path lookup. *)
Theorem Open_file_handle_is_unopened_blob (fs : ghfs) (name : string) (f : ghfsFile) :
  fst (Open fs name) = Ok (FileHandle f) ->
  exists e,
    trim_slash name <> EmptyString /\
    GetTreeEntryByPath (fs_tree fs) (trim_slash name) = Ok e /\
    EntryType e = ObjectBlob /\
    f = fresh e (modTimeFileInfo e (Author_When (fs_commit fs))) /\
    rc f = None /\ off f = 0 /\ atEnd f = false /\
    ghfsFile_Stat f = (modTimeFileInfo e (Author_When (fs_commit fs)), None) /\
    snd (Open fs name) = [CallGetTreeEntryByPath (trim_slash name)].
Proof.
  intros Hopen.
  destruct (Open_cases fs name) as
    [[_ H] | [(_ & x & _ & H) | (Hn & e & Hg & [[Ht H] | [(_ & x & _ & H)
     | [(_ & t & _ & H) | (_ & _ & H)]]])]]; rewrite H in Hopen; simpl in Hopen;
    try discriminate.
  - destruct (NewDir_cases (fs_tree fs) rootFileInfo) as [(sc & _ & H') | (x & _ & H')];
      rewrite H' in Hopen; discriminate.
  - inversion Hopen; subst f. exists e. rewrite H. repeat split; auto.
  - destruct (NewDir_cases t (modTimeFileInfo e (Author_When (fs_commit fs))))
      as [(sc & _ & H') | (x & _ & H')]; rewrite H' in Hopen; discriminate.
Qed.

Lemma Open_file_handle_is_unopened_blob_witness :
  exists e,
    trim_slash "/a.txt" <> EmptyString /\
    GetTreeEntryByPath (fs_tree fs) (trim_slash "/a.txt") = Ok e /\
    EntryType e = ObjectBlob /\
    a_handle = fresh e (modTimeFileInfo e (Author_When (fs_commit fs))) /\
    rc a_handle = None /\ off a_handle = 0 /\ atEnd a_handle = false /\
    ghfsFile_Stat a_handle = (modTimeFileInfo e (Author_When (fs_commit fs)), None) /\
    snd (Open fs "/a.txt") = [CallGetTreeEntryByPath (trim_slash "/a.txt")].
Proof.
  apply (Open_file_handle_is_unopened_blob fs "/a.txt" a_handle). reflexivity.
Defined.

(** X10.  A directory handle comes only from the root or from a tree:
    when [Open] returns a directory handle, its scanner is a new one on
    the handle's tree, and either the path without its leading slash is
    empty, the tree is the root tree and [Stat] is [rootFileInfo], or the
    path resolves to an entry of type tree, the tree is the subtree of
    that path and [Stat] is that entry with the commit's author time. *)
Theorem Open_dir_handle_is_root_or_tree (fs : ghfs) (name : string) (d : ghfsDir) :
  fst (Open fs name) = Ok (DirHandle d) ->
  Tree_Scanner (d_tree d) = Ok (d_scanner d) /\
  ((trim_slash name = EmptyString /\ d_tree d = fs_tree fs /\
    ghfsDir_Stat d = (rootFileInfo, None)) \/
   (exists e,
      trim_slash name <> EmptyString /\
      GetTreeEntryByPath (fs_tree fs) (trim_slash name) = Ok e /\
      EntryType e = ObjectTree /\
      SubTree (fs_tree fs) (trim_slash name) = Ok (d_tree d) /\
      ghfsDir_Stat d = (modTimeFileInfo e (Author_When (fs_commit fs)), None))).
Proof.
  intros Hopen.
  destruct (Open_cases fs name) as
    [[Hn H] | [(_ & x & _ & H) | (Hn & e & Hg & [[Ht H] | [(_ & x & _ & H)
     | [(Ht & t & Hs & H) | (_ & _ & H)]]])]]; rewrite H in Hopen; simpl in Hopen;
    try discriminate.
  - destruct (NewDir_cases (fs_tree fs) rootFileInfo) as [(sc & Hsc & H') | (x & _ & H')];
      rewrite H' in Hopen; [| discriminate].
    inversion Hopen; subst d. simpl. split; [exact Hsc |]. left. auto.
  - destruct (NewDir_cases t (modTimeFileInfo e (Author_When (fs_commit fs))))
      as [(sc & Hsc & H') | (x & _ & H')]; rewrite H' in Hopen; [| discriminate].
    inversion Hopen; subst d. simpl. split; [exact Hsc |]. right.
    exists e. repeat split; auto.
Qed.

Lemma Open_dir_handle_is_root_or_tree_witness :
  Tree_Scanner (d_tree dir_handle) = Ok (d_scanner dir_handle) /\
  ((trim_slash "/dir" = EmptyString /\ d_tree dir_handle = fs_tree fs /\
    ghfsDir_Stat dir_handle = (rootFileInfo, None)) \/
   (exists e,
      trim_slash "/dir" <> EmptyString /\
      GetTreeEntryByPath (fs_tree fs) (trim_slash "/dir") = Ok e /\
      EntryType e = ObjectTree /\
      SubTree (fs_tree fs) (trim_slash "/dir") = Ok (d_tree dir_handle) /\
      ghfsDir_Stat dir_handle = (modTimeFileInfo e (Author_When (fs_commit fs)), None))).
Proof.
  apply (Open_dir_handle_is_root_or_tree fs "/dir" dir_handle). reflexivity.
Defined.

(** X11.  Everything opened below the root carries the commit's time:
    for the file system [FromCommit] builds, with or without a subtree to
    serve, the [ModTime] of the [Stat] of any handle [Open] returns is the
    commit's author time, whatever the clock says; only the handle of the
    root reports the clock. *)
Theorem Open_ModTime_is_the_commit_time
    (commit : Commit) (trees : list Tree) (name : string) (h : File) (now : Time) :
  fst (Open (FromCommit commit trees) name) = Ok h ->
  FileInfo_ModTime now (fst (File_Stat h)) =
  if String.eqb (trim_slash name) EmptyString then now else Author_When commit.
Proof.
  intros Hopen.
  set (fs := FromCommit commit trees) in *.
  assert (Hc : fs_commit fs = commit) by (unfold fs, FromCommit; destruct trees; reflexivity).
  destruct (Open_cases fs name) as
    [[Hn H] | [(_ & x & _ & H) | (Hn & e & Hg & [[Ht H] | [(_ & x & _ & H)
     | [(Ht & t & Hs & H) | (_ & _ & H)]]])]]; rewrite H in Hopen; simpl in Hopen;
    try discriminate.
  - rewrite Hn. simpl.
    destruct (NewDir_cases (fs_tree fs) rootFileInfo) as [(sc & Hsc & H') | (x & _ & H')];
      rewrite H' in Hopen; [| discriminate].
    inversion Hopen; subst h. reflexivity.
  - apply String.eqb_neq in Hn. rewrite Hn.
    inversion Hopen; subst h. simpl. rewrite Hc. reflexivity.
  - apply String.eqb_neq in Hn. rewrite Hn.
    destruct (NewDir_cases t (modTimeFileInfo e (Author_When (fs_commit fs))))
      as [(sc & Hsc & H') | (x & _ & H')]; rewrite H' in Hopen; [| discriminate].
    inversion Hopen; subst h. simpl. rewrite Hc. reflexivity.
Qed.

Lemma Open_ModTime_is_the_commit_time_witness :
  FileInfo_ModTime 1700000000 (fst (File_Stat (FileHandle a_handle))) = 1430000000.
Proof.
  apply (Open_ModTime_is_the_commit_time commit [] "/a.txt" (FileHandle a_handle) 1700000000).
  reflexivity.
Defined.

(** X12.  One leading slash is dropped, and only one: a name that does
    not start with a slash opens the same with a slash put before it;
    with two slashes before it, it is not opened as such: the first call
    made to the store is the lookup of the name with one slash, and this
    is so even for the empty name, so that a path of two slashes is not
    the root. *)
Theorem Open_drops_one_leading_slash (fs : ghfs) (name : string) :
  has_slash_prefix name = false ->
  Open fs (String "/" name) = Open fs name /\
  hd_error (snd (Open fs (String "/" (String "/" name)))) =
    Some (CallGetTreeEntryByPath (String "/" name)).
Proof.
  intros Hp. split.
  - unfold Open. simpl.
    assert (Ht : trim_slash name = name).
    { destruct name as [|c s]; [reflexivity |]. simpl in *.
      destruct c as [[] [] [] [] [] [] [] []]; try reflexivity; discriminate. }
    rewrite Ht. reflexivity.
  - unfold Open. simpl.
    destruct (GetTreeEntryByPath (fs_tree fs) (String "/" name)) as [e|x];
      [| reflexivity].
    destruct (EntryType e); try reflexivity.
    destruct (SubTree (fs_tree fs) (String "/" name)) as [t|x]; [| reflexivity].
    destruct (NewDir t (modTimeFileInfo e (Author_When (fs_commit fs)))); reflexivity.
Qed.

Lemma Open_drops_one_leading_slash_witness :
  Open fs "/a.txt" = Open fs "a.txt" /\
  hd_error (snd (Open fs "//a.txt")) = Some (CallGetTreeEntryByPath "/a.txt").
Proof. apply (Open_drops_one_leading_slash fs "a.txt"). reflexivity. Defined.

(** X13.  The one error [Open] raises itself is the invalid-type error,
    and it raises it exactly for a path that resolves to an entry that is
    neither a tree nor a blob; every other error it returns is the
    store's, passed on as it came: from the scanner of the root tree,
    from the path lookup, from the subtree lookup or from the scanner of
    the subtree. *)
Theorem Open_error_is_invalid_type_or_the_stores
    (fs : ghfs) (name : string) (x : error) :
  fst (Open fs name) = Err x ->
  let n := trim_slash name in
  (n = EmptyString /\ Tree_Scanner (fs_tree fs) = Err x) \/
  (n <> EmptyString /\ GetTreeEntryByPath (fs_tree fs) n = Err x) \/
  (n <> EmptyString /\ exists e,
     GetTreeEntryByPath (fs_tree fs) n = Ok e /\
     ((EntryType e = ObjectTree /\ SubTree (fs_tree fs) n = Err x) \/
      (EntryType e = ObjectTree /\ exists t,
         SubTree (fs_tree fs) n = Ok t /\ Tree_Scanner t = Err x) \/
      (EntryType e <> ObjectTree /\ EntryType e <> ObjectBlob /\
       x = ErrorString "Invalid type"))).
Proof.
  intros Hopen. cbv zeta.
  destruct (Open_cases fs name) as
    [[Hn H] | [(Hn & y & Hg & H) | (Hn & e & Hg & [[Ht H] | [(Ht & y & Hs & H)
     | [(Ht & t & Hs & H) | (Hb & Ht & H)]]])]]; rewrite H in Hopen; simpl in Hopen.
  - left. split; [exact Hn |].
    destruct (NewDir_cases (fs_tree fs) rootFileInfo) as [(sc & Hsc & H') | (y & Hy & H')];
      rewrite H' in Hopen; [discriminate |].
    inversion Hopen; subst. exact Hy.
  - right; left. inversion Hopen; subst. auto.
  - discriminate.
  - right; right. split; [exact Hn |]. exists e. split; [exact Hg |].
    left. inversion Hopen; subst. auto.
  - right; right. split; [exact Hn |]. exists e. split; [exact Hg |].
    right; left. split; [exact Ht |]. exists t. split; [exact Hs |].
    destruct (NewDir_cases t (modTimeFileInfo e (Author_When (fs_commit fs))))
      as [(sc & Hsc & H') | (y & Hy & H')]; rewrite H' in Hopen; [discriminate |].
    inversion Hopen; subst. exact Hy.
  - right; right. split; [exact Hn |]. exists e. split; [exact Hg |].
    right; right. inversion Hopen; subst. auto.
Qed.

Lemma Open_error_is_invalid_type_or_the_stores_witness :
  (trim_slash "/missing" = EmptyString /\
   Tree_Scanner (fs_tree fs) = Err (LibError "entry not found")) \/
  (trim_slash "/missing" <> EmptyString /\
   GetTreeEntryByPath (fs_tree fs) (trim_slash "/missing")
   = Err (LibError "entry not found")) \/
  (trim_slash "/missing" <> EmptyString /\ exists e,
     GetTreeEntryByPath (fs_tree fs) (trim_slash "/missing") = Ok e /\
     ((EntryType e = ObjectTree /\
       SubTree (fs_tree fs) (trim_slash "/missing") = Err (LibError "entry not found")) \/
      (EntryType e = ObjectTree /\ exists t,
         SubTree (fs_tree fs) (trim_slash "/missing") = Ok t /\
         Tree_Scanner t = Err (LibError "entry not found")) \/
      (EntryType e <> ObjectTree /\ EntryType e <> ObjectBlob /\
       LibError "entry not found" = ErrorString "Invalid type"))).
Proof.
  apply (Open_error_is_invalid_type_or_the_stores fs "/missing" (LibError "entry not found")).
  reflexivity.
Defined.

(** ** Paging through a directory *)

(** The loop of [Readdir] takes the next [c] entries off the scanner,
    fewer if fewer remain, and the scanner has stopped exactly when a
    [Scan] found nothing. *)
Lemma Readdir_loop_spec (c : nat) :
  forall (sc : TreeScanner) (ret : list FileInfo),
    Readdir_loop c sc ret =
    (ret ++ map entryFileInfo (firstn c (rest sc)),
     {| rest := skipn c (rest sc);
        stopped := if (List.length (rest sc) <? c)%nat then true
                   else match c with O => stopped sc | S _ => false end;
        fault := fault sc |}).
Proof.
  induction c as [|c IH]; intros sc ret.
  - simpl. rewrite app_nil_r. destruct sc; reflexivity.
  - simpl. unfold Scan. destruct (rest sc) as [|e es] eqn:Er.
    + simpl. rewrite app_nil_r. reflexivity.
    + rewrite IH. simpl. rewrite <- app_assoc. simpl.
      change (S (List.length es) <? S c)%nat with (List.length es <? c)%nat.
      destruct (List.length es <? c)%nat; [reflexivity |].
      destruct c; reflexivity.
Qed.

(** The entries a [Readdir] returns and the entries it leaves, for any
    count. *)
Lemma Readdir_entries (count : Z) (d : ghfsDir) :
  fst (fst (ghfsDir_Readdir count d)) =
    map entryFileInfo (firstn (Z.to_nat count) (rest (d_scanner d))) /\
  rest (d_scanner (snd (ghfsDir_Readdir count d))) =
    skipn (Z.to_nat count) (rest (d_scanner d)) /\
  fault (d_scanner (snd (ghfsDir_Readdir count d))) = fault (d_scanner d).
Proof.
  unfold ghfsDir_Readdir. rewrite Readdir_loop_spec.
  match goal with |- context [Scanner_Err ?s] => destruct (Scanner_Err s) end;
    simpl; repeat split.
Qed.

(** X14.  With a positive count [Readdir] returns the next [count]
    entries the scanner has, in the scanner's order, or all that remain
    when fewer do, and moves the scanner past them; the handle's tree and
    [Stat] stay.  It reports an error only when fewer than [count]
    entries remained and the scanner met a fault at the end, and then
    still returns the entries it read. *)
Theorem Readdir_delivers_the_next_page (count : Z) (d : ghfsDir) :
  0 < count ->
  ghfsDir_Readdir count d =
  (map entryFileInfo (firstn (Z.to_nat count) (rest (d_scanner d))),
   (if len (rest (d_scanner d)) <? count then fault (d_scanner d) else None),
   {| d_tree := d_tree d; d_fi := d_fi d;
      d_scanner := {| rest := skipn (Z.to_nat count) (rest (d_scanner d));
                      stopped := len (rest (d_scanner d)) <? count;
                      fault := fault (d_scanner d) |} |}).
Proof.
  intros Hc. unfold ghfsDir_Readdir. rewrite Readdir_loop_spec. simpl.
  assert (Hlt : (List.length (rest (d_scanner d)) <? Z.to_nat count)%nat
                = (len (rest (d_scanner d)) <? count)).
  { unfold len.
    destruct (Nat.ltb_spec (List.length (rest (d_scanner d))) (Z.to_nat count));
      symmetry; [apply Z.ltb_lt | apply Z.ltb_ge]; lia. }
  rewrite Hlt. unfold Scanner_Err. simpl.
  destruct (len (rest (d_scanner d)) <? count) eqn:E.
  - destruct (fault (d_scanner d)); reflexivity.
  - destruct (Z.to_nat count) eqn:Ec; [lia |]. reflexivity.
Qed.


Lemma Readdir_delivers_the_next_page_witness :
  ghfsDir_Readdir 1 dir_handle =
  (map entryFileInfo (firstn 1 [b_txt]), None,
   {| d_tree := dir_tree; d_fi := modTimeFileInfo dir 1430000000;
      d_scanner := {| rest := skipn 1 [b_txt]; stopped := false; fault := None |} |}).
Proof. apply (Readdir_delivers_the_next_page 1 dir_handle). lia. Defined.

Lemma firstn_add_skipn {A : Type} (a b : nat) (l : list A) :
  firstn a l ++ firstn b (skipn a l) = firstn (a + b) l.
Proof.
  revert l. induction a as [|a IH]; intros l; [reflexivity |].
  destruct l as [|x l]; simpl.
  - rewrite firstn_nil. reflexivity.
  - rewrite IH. reflexivity.
Qed.

(** X15.  Paging loses nothing and repeats nothing: two [Readdir] calls
    in a row with counts [a] and [b] return, one after the other, the
    entries that a single call with count [a + b] returns, and leave the
    same entries unread. *)
Theorem Readdir_pages_add_up (a b : Z) (d : ghfsDir) :
  0 <= a -> 0 <= b ->
  let d1 := snd (ghfsDir_Readdir a d) in
  fst (fst (ghfsDir_Readdir a d)) ++ fst (fst (ghfsDir_Readdir b d1)) =
    fst (fst (ghfsDir_Readdir (a + b) d)) /\
  rest (d_scanner (snd (ghfsDir_Readdir b d1))) =
    rest (d_scanner (snd (ghfsDir_Readdir (a + b) d))).
Proof.
  intros Ha Hb d1.
  destruct (Readdir_entries a d) as (E1 & R1 & _).
  destruct (Readdir_entries b d1) as (E2 & R2 & _).
  destruct (Readdir_entries (a + b) d) as (E3 & R3 & _).
  fold d1 in R1. rewrite E1, E2, E3, R2, R3, R1.
  rewrite Z2Nat.inj_add by lia. split.
  - rewrite <- map_app, firstn_add_skipn. reflexivity.
  - rewrite skipn_skipn, Nat.add_comm. reflexivity.
Qed.

Lemma Readdir_pages_add_up_witness :
  fst (fst (ghfsDir_Readdir 1 dir_handle))
    ++ fst (fst (ghfsDir_Readdir 2 (snd (ghfsDir_Readdir 1 dir_handle)))) =
    fst (fst (ghfsDir_Readdir (1 + 2) dir_handle)) /\
  rest (d_scanner (snd (ghfsDir_Readdir 2 (snd (ghfsDir_Readdir 1 dir_handle))))) =
    rest (d_scanner (snd (ghfsDir_Readdir (1 + 2) dir_handle))).
Proof. apply (Readdir_pages_add_up 1 2 dir_handle); lia. Defined.

(** X16.  A directory just opened lists its tree: when [Open] returns a
    directory handle and the store gives the entries [es] for its tree, a
    [Readdir] with a positive count of at least their number returns
    exactly those entries, in the tree's order, each as the bare entry
    (so with the entry's own name, size and kind), and leaves none. *)
Theorem Open_then_Readdir_lists_the_tree
    (fs : ghfs) (name : string) (d : ghfsDir) (es : list TreeEntry) (count : Z) :
  fst (Open fs name) = Ok (DirHandle d) ->
  tree_entries (d_tree d) = Ok es -> 0 < count -> len es <= count ->
  fst (fst (ghfsDir_Readdir count d)) = map entryFileInfo es /\
  map FileInfo_Name (fst (fst (ghfsDir_Readdir count d))) = map Name es /\
  map FileInfo_Size (fst (fst (ghfsDir_Readdir count d))) = map Size es /\
  rest (d_scanner (snd (ghfsDir_Readdir count d))) = [].
Proof.
  intros Hopen Hes Hc Hlen.
  assert (Hsc : Tree_Scanner (d_tree d) = Ok (d_scanner d)).
  { destruct (Open_cases fs name) as
      [[Hn H] | [(_ & x & _ & H) | (Hn & e & Hg & [[Ht H] | [(_ & x & _ & H)
       | [(Ht & t & Hs & H) | (_ & _ & H)]]])]]; rewrite H in Hopen; simpl in Hopen;
      try discriminate.
    - destruct (NewDir_cases (fs_tree fs) rootFileInfo)
        as [(sc & Hsc & H') | (x & _ & H')]; rewrite H' in Hopen; [| discriminate].
      inversion Hopen; subst d. exact Hsc.
    - destruct (NewDir_cases t (modTimeFileInfo e (Author_When (fs_commit fs))))
        as [(sc & Hsc & H') | (x & _ & H')]; rewrite H' in Hopen; [| discriminate].
      inversion Hopen; subst d. exact Hsc. }
  assert (Hrest : rest (d_scanner d) = es).
  { unfold Tree_Scanner in Hsc. rewrite Hes in Hsc. inversion Hsc as [E].
    reflexivity. }
  destruct (Readdir_entries count d) as (E1 & R1 & _).
  rewrite E1, R1, Hrest.
  assert (Hn : (List.length es <= Z.to_nat count)%nat) by (unfold len in Hlen; lia).
  rewrite firstn_all2, skipn_all2 by exact Hn.
  rewrite !map_map. repeat split.
Qed.

Lemma Open_then_Readdir_lists_the_tree_witness :
  fst (fst (ghfsDir_Readdir 10 dir_handle)) = map entryFileInfo [b_txt] /\
  map FileInfo_Name (fst (fst (ghfsDir_Readdir 10 dir_handle))) = map Name [b_txt] /\
  map FileInfo_Size (fst (fst (ghfsDir_Readdir 10 dir_handle))) = map Size [b_txt] /\
  rest (d_scanner (snd (ghfsDir_Readdir 10 dir_handle))) = [].
Proof.
  apply (Open_then_Readdir_lists_the_tree fs "/dir" dir_handle [b_txt] 10).
  - reflexivity.
  - reflexivity.
  - lia.
  - vm_compute. discriminate.
Defined.

(** ** The directory reader of the earlier generation *)

Import GhfsIndexedInfo.

Lemma skipn_cons_nth {A : Type} (l : list A) (i : nat) (e : A) :
  nth_error l i = Some e -> skipn i l = e :: skipn (S i) l.
Proof.
  revert i. induction l as [|x l IH]; intros [|i] H; simpl in *; try discriminate.
  - inversion H; reflexivity.
  - apply IH. exact H.
Qed.

(** With a positive count the loop takes entries until it has [count] of
    them or the tree has no more. *)
Lemma Indexed_Readdir_loop_page (fuel : nat) :
  forall (count : Z) (t : GhfsIndexed.Tree) (i : nat) (ret : list GhfsIndexed.ghfsFileInfo),
    0 < count -> len ret <= count ->
    (i <= List.length (GhfsIndexed.entries t))%nat ->
    (List.length (GhfsIndexed.entries t) - i < fuel)%nat ->
    let m := Z.to_nat (Z.min (count - len ret)
                             (GhfsIndexed.EntryCount t - Z.of_nat i)) in
    GhfsIndexed.Readdir_loop fuel count t (Z.of_nat i) ret =
    Some (ret ++ map (GhfsIndexed.NewFileInfo t)
                     (firstn m (skipn i (GhfsIndexed.entries t))),
          Z.of_nat i + Z.of_nat m).
Proof.
  induction fuel as [|fuel IH]; intros count t i ret Hc Hret Hi Hfuel; [lia |].
  cbv zeta. simpl. unfold GhfsIndexed.EntryCount, len in *.
  destruct (Z.of_nat i <? Z.of_nat (List.length (GhfsIndexed.entries t))) eqn:Elt.
  - apply Z.ltb_lt in Elt.
    assert (Hcnt : (count >? 0) = true) by (rewrite Z.gtb_ltb; apply Z.ltb_lt; lia).
    rewrite Hcnt. simpl.
    destruct (Z.of_nat (List.length ret) >=? count) eqn:Efull.
    + rewrite Z.geb_leb in Efull. apply Z.leb_le in Efull.
      replace (Z.to_nat (Z.min (count - Z.of_nat (List.length ret))
                 (Z.of_nat (List.length (GhfsIndexed.entries t)) - Z.of_nat i)))
        with O by lia.
      simpl. rewrite app_nil_r, Z.add_0_r. reflexivity.
    + rewrite Z.geb_leb in Efull. apply Z.leb_gt in Efull.
      unfold GhfsIndexed.EntryByIndex.
      assert (Hn : (Z.of_nat i <? 0) = false) by (apply Z.ltb_ge; lia).
      rewrite Hn, Nat2Z.id.
      destruct (nth_error (GhfsIndexed.entries t) i) as [e|] eqn:En.
      * replace (Z.of_nat i + 1) with (Z.of_nat (S i)) by lia.
        assert (Hl1 : List.length (ret ++ [GhfsIndexed.NewFileInfo t e])
                      = S (List.length ret)).
        { rewrite length_app. simpl. lia. }
        pose proof (IH count t (S i) (ret ++ [GhfsIndexed.NewFileInfo t e]) Hc) as IH'.
        cbv zeta in IH'. unfold GhfsIndexed.EntryCount, len in IH'.
        rewrite Hl1 in IH'. rewrite IH' by lia. clear IH'.
        remember (Z.to_nat (Z.min (count - Z.of_nat (List.length ret))
                 (Z.of_nat (List.length (GhfsIndexed.entries t)) - Z.of_nat i)))
          as m eqn:Em.
        assert (Hinner :
          Z.to_nat (Z.min (count - Z.of_nat (S (List.length ret)))
                     (Z.of_nat (List.length (GhfsIndexed.entries t)) - Z.of_nat (S i)))
          = pred m) by lia.
        rewrite Hinner.
        destruct m as [|m']; [lia |].
        rewrite (skipn_cons_nth _ _ _ En).
        cbn [pred firstn map]. rewrite <- app_assoc. cbn [app].
        replace (Z.of_nat (S i) + Z.of_nat m') with (Z.of_nat i + Z.of_nat (S m')) by lia.
        reflexivity.
      * apply nth_error_None in En. lia.
  - apply Z.ltb_ge in Elt.
    replace (Z.to_nat (Z.min (count - Z.of_nat (List.length ret))
               (Z.of_nat (List.length (GhfsIndexed.entries t)) - Z.of_nat i)))
      with O by lia.
    simpl. rewrite app_nil_r, Z.add_0_r. reflexivity.
Qed.

(** X17.  The index-walking [Readdir]: at the end of the tree (and so
    on an empty tree) it returns no entries and [io.EOF], whatever the
    count, and stays there.  Before the end it returns, without an error,
    the entries from the index on, in the tree's order and each with the
    name of its tree entry: [count] of them when [count] is positive,
    fewer if fewer remain, and all that remain when [count] is not
    positive; the index moves past them. *)
Theorem Indexed_Readdir_delivers_the_next_page (count : Z) (d : GhfsIndexed.ghfsDir) :
  0 <= GhfsIndexed.idx d ->
  let t := GhfsIndexed.tree d in
  let n := GhfsIndexed.EntryCount t in
  let k := page_size count (GhfsIndexed.idx d) n in
  let page := firstn (Z.to_nat k)
                (skipn (Z.to_nat (GhfsIndexed.idx d)) (GhfsIndexed.entries t)) in
  (n <= GhfsIndexed.idx d ->
   GhfsIndexed.ghfsDir_Readdir count d = Some ([], Some EOF, d)) /\
  (GhfsIndexed.idx d < n ->
   GhfsIndexed.ghfsDir_Readdir count d =
     Some (map (GhfsIndexed.NewFileInfo t) page, None,
           {| GhfsIndexed.tree := t; GhfsIndexed.fi := GhfsIndexed.fi d;
              GhfsIndexed.idx := GhfsIndexed.idx d + k |}) /\
   map ghfsFileInfo_Name (map (GhfsIndexed.NewFileInfo t) page)
     = map GhfsIndexed.Name page /\
   len page = k /\ 0 < k).
Proof.
  intros Hidx t n k page. split.
  - intros Hend. unfold GhfsIndexed.ghfsDir_Readdir. fold t. fold n.
    assert (H : (GhfsIndexed.idx d >=? n) = true)
      by (rewrite Z.geb_leb; apply Z.leb_le; lia).
    rewrite H. reflexivity.
  - intros Hlt.
    assert (Hn : n = Z.of_nat (List.length (GhfsIndexed.entries t))) by reflexivity.
    assert (Hk : 0 < k /\ k <= n - GhfsIndexed.idx d /\
                 (count > 0 -> k = Z.min count (n - GhfsIndexed.idx d)) /\
                 (count <= 0 -> k = n - GhfsIndexed.idx d)).
    { unfold k, page_size. rewrite Z.gtb_ltb.
      destruct (0 <? count) eqn:E; [apply Z.ltb_lt in E | apply Z.ltb_ge in E]; lia. }
    destruct Hk as (Hk0 & Hkn & Hkpos & Hkall).
    assert (Hpage : len page = k).
    { unfold page. rewrite len_firstn, len_skipn. fold n. unfold len. lia. }
    split; [| split; [| split; [exact Hpage | exact Hk0]]].
    + unfold GhfsIndexed.ghfsDir_Readdir. fold t. fold n.
      assert (Hge : (GhfsIndexed.idx d >=? n) = false)
        by (rewrite Z.geb_leb; apply Z.leb_gt; lia).
      rewrite Hge.
      rewrite <- (Z2Nat.id (GhfsIndexed.idx d)) at 2 by lia.
      destruct (Z_lt_le_dec 0 count) as [Hc | Hc].
      * rewrite Indexed_Readdir_loop_page; try (unfold len; simpl; lia).
        cbv zeta. change (len (@nil GhfsIndexed.ghfsFileInfo)) with 0.
        fold n. rewrite Z2Nat.id by lia.
        replace (Z.min (count - 0) (n - GhfsIndexed.idx d)) with k by lia.
        simpl. rewrite Z2Nat.id by lia. reflexivity.
      * rewrite Indexed_Readdir_loop_all by lia.
        simpl. fold n.
        assert (Hall : page = skipn (Z.to_nat (GhfsIndexed.idx d)) (GhfsIndexed.entries t)).
        { unfold page. apply firstn_all2. rewrite length_skipn. lia. }
        rewrite <- Hall.
        replace (GhfsIndexed.idx d + k) with n by lia. reflexivity.
    + rewrite map_map. apply map_ext. intros e. unfold GhfsIndexed.NewFileInfo.
      destruct (GhfsIndexed.Filemode_ e); try reflexivity;
        destruct (GhfsIndexed.LookupBlob t (GhfsIndexed.Id e)); reflexivity.
Qed.

Lemma Indexed_Readdir_delivers_the_next_page_witness :
  exists i1,
    GhfsIndexed.ghfsDir_Readdir 5 indexed_dir
    = Some ([i1], None,
            {| GhfsIndexed.tree := GhfsIndexed.tree indexed_dir;
               GhfsIndexed.fi := GhfsIndexed.fi indexed_dir;
               GhfsIndexed.idx := 1 |}) /\
    ghfsFileInfo_Name i1 = "b.txt".
Proof.
  destruct (Indexed_Readdir_delivers_the_next_page 5 indexed_dir) as [_ H].
  - simpl. lia.
  - destruct H as (H1 & H2 & _); [vm_compute; reflexivity |].
    eexists. split; [exact H1 | reflexivity].
Defined.

(** X18.  The metadata built for a tree entry: it has the entry's name;
    it is a directory exactly when the entry's file mode is the tree
    mode; a directory has size 0, any other entry has the size of its
    blob, and size 0 when the blob cannot be found, which is not an
    error. *)
Theorem Indexed_NewFileInfo_kind_and_size
    (t : GhfsIndexed.Tree) (e : GhfsIndexed.TreeEntry) :
  let i := GhfsIndexed.NewFileInfo t e in
  ghfsFileInfo_Name i = GhfsIndexed.Name e /\
  (ghfsFileInfo_IsDir i = true <-> GhfsIndexed.Filemode_ e = GhfsIndexed.FilemodeTree) /\
  (GhfsIndexed.Filemode_ e = GhfsIndexed.FilemodeTree -> ghfsFileInfo_Size i = 0) /\
  (forall x, GhfsIndexed.LookupBlob t (GhfsIndexed.Id e) = Err x ->
             ghfsFileInfo_Size i = 0) /\
  (forall sz, GhfsIndexed.Filemode_ e <> GhfsIndexed.FilemodeTree ->
              GhfsIndexed.LookupBlob t (GhfsIndexed.Id e) = Ok sz ->
              ghfsFileInfo_Size i = sz).
Proof.
  cbv zeta. unfold GhfsIndexed.NewFileInfo.
  destruct (GhfsIndexed.Filemode_ e) eqn:Em;
    destruct (GhfsIndexed.LookupBlob t (GhfsIndexed.Id e)) as [s|y] eqn:El;
    repeat split; intros; simpl in *; try reflexivity; try congruence;
    try discriminate.
Qed.

(** ** Faults of the store *)

Lemma stream_of_end (f : ghfsFile) (r : ReadCloser) (p : list byte) :
  stream_of f r -> upcoming f = Ok p ->
  pending r = p /\ rc_end r = stream_end f.
Proof.
  unfold stream_of, upcoming, stream_end, Blob_Data.
  intros [Hr | [Hn Hb]] Hup.
  - rewrite Hr in *. inversion Hup. auto.
  - rewrite Hn in *. destruct (entry_blob (entry f)) as [b|x]; [| discriminate].
    inversion Hb; subst; simpl. inversion Hup. auto.
Qed.

(** A [Read] with a non-empty buffer on a handle that is not at its end,
    whatever the state of the blob: bytes while there are some, then what
    the stream reports at its end. *)
Lemma Read_upcoming_end (buf : Z) (f : ghfsFile) (p : list byte) :
  upcoming f = Ok p -> atEnd f = false -> 1 <= buf ->
  0 <= off f -> off f + len p <= int64_max ->
  exists data rest e f' cs,
    ghfsFile_Read buf f = (data, e, f', cs) /\
    p = data ++ rest /\ upcoming f' = Ok rest /\ stream_end f' = stream_end f /\
    (p <> [] -> 1 <= len data <= buf /\ e = None) /\
    (p = [] -> data = [] /\ e = Some (stream_end f)) /\
    off f' = off f + len data /\ atEnd f' = false.
Proof.
  intros Hup Hend Hbuf Hoff Hmax.
  pose proof (len_nonneg p) as Hp0.
  destruct (ghfsFile_Read_cases buf f) as [(x & Hn & Hb & Hr) | (r & c0 & Hs & Hr)].
  - unfold upcoming in Hup. rewrite Hn, Hb in Hup. discriminate.
  - destruct (stream_of_end f r p Hs Hup) as [Hpend Hre].
    rewrite Hr.
    destruct (Read_opened_spec buf f r c0)
      as [(Ha & Ho) | [(Ha & Hp & Ho) | (Ha & Hp & Ho)]];
      [congruence | |]; cbv zeta in Ho; rewrite Ho; clear Ho.
    + assert (Hnil : p = []) by congruence.
      exists [], [], (Some (rc_end r)). eexists; eexists. split; [reflexivity |].
      rewrite <- Hre. unfold upcoming, stream_end, rc_end, add64; simpl.
      rewrite Z.add_0_r, wrap64_id by int64_lia.
      change (len (@nil byte)) with 0.
      repeat split; auto; try congruence; lia.
    + set (k := Z.to_nat (Z.min buf (Z.pos (chunk r)))).
      exists (firstn k (pending r)), (skipn k (pending r)), None.
      eexists; eexists. split; [reflexivity |].
      pose proof (len_pos _ Hp) as Hpos.
      assert (Hlen : 1 <= len (firstn k (pending r)) <= buf).
      { rewrite len_firstn. unfold k. lia. }
      assert (Hle : len (firstn k (pending r)) <= len p).
      { rewrite <- Hpend, len_firstn. lia. }
      rewrite <- Hre. unfold upcoming, stream_end, rc_end, add64; simpl.
      rewrite wrap64_id by int64_lia.
      repeat split; auto; try lia; try congruence.
      rewrite firstn_skipn. auto.
Qed.

(** [Discard.ReadFrom] allowed more bytes than are upcoming reads them
    all and then hands on what the stream reports at its end. *)
Lemma Discard_ReadFrom_runs_dry (fuel : nat) :
  forall (N : Z) (f : ghfsFile) (n : Z) (cs : list StoreCall) (p : list byte),
    upcoming f = Ok p -> atEnd f = false ->
    0 <= off f -> off f + len p <= int64_max ->
    len p < N -> (Z.to_nat N < fuel)%nat ->
    exists f' cs',
      Discard_ReadFrom fuel N f n cs =
        Some (n + len p, reported (stream_end f), f', cs') /\
      upcoming f' = Ok [] /\ off f' = off f + len p /\ atEnd f' = false.
Proof.
  induction fuel as [|fuel IH];
    intros N f n cs p Hup Hend Hoff Hmax HN Hfuel; [lia |].
  pose proof (len_nonneg p) as Hp0.
  simpl. unfold LimitedReader_Read.
  assert (EN : (N <=? 0) = false) by (apply Z.leb_gt; lia).
  rewrite EN.
  set (q := if blackHoleSize >? N then N else blackHoleSize).
  assert (Hq : 1 <= q <= N).
  { unfold q, blackHoleSize. rewrite Z.gtb_ltb.
    destruct (N <? 8192) eqn:E; [lia |]. apply Z.ltb_ge in E. lia. }
  destruct (Read_upcoming_end q f p Hup Hend) as
    (data & rest & e & f1 & c1 & Hrd & Hsplit & Hup1 & Hse & Hne & Hnil & Ho1 & Ha1);
    try lia.
  rewrite Hrd.
  destruct p as [|b0 p0].
  - destruct (Hnil eq_refl) as [-> ->]. simpl in Hsplit. subst rest.
    change (len (@nil byte)) with 0 in *.
    exists f1, (cs ++ c1). split.
    + unfold reported. destruct (stream_end f); reflexivity.
    + repeat split; auto.
  - destruct Hne as [Hlen ->]; [discriminate |].
    assert (Hlp : len (b0 :: p0) = len data + len rest)
      by (rewrite Hsplit; apply len_app).
    destruct (IH (N - len data) f1 (n + len data) (cs ++ c1) rest Hup1 Ha1)
      as (f' & cs' & Hrun & Hup' & Ho' & Ha'); try lia.
    exists f', cs'. rewrite Hrun, Hse.
    replace (n + len data + len rest) with (n + len (b0 :: p0)) by lia.
    repeat split; auto. lia.
Qed.

(** Reading to the end, whatever the state of the blob. *)
Lemma read_all_to_the_end (fuel : nat) (buf : Z) :
  forall (f : ghfsFile) (p acc : list byte),
    upcoming f = Ok p -> atEnd f = false -> 1 <= buf ->
    0 <= off f -> off f + len p <= int64_max ->
    (List.length p < fuel)%nat ->
    exists f', read_all fuel buf f acc = Some (acc ++ p, reported (stream_end f), f') /\
               off f' = off f + len p.
Proof.
  induction fuel as [|fuel IH];
    intros f p acc Hup Hend Hbuf Hoff Hmax Hfuel; [lia |].
  simpl.
  destruct (Read_upcoming_end buf f p Hup Hend Hbuf Hoff Hmax) as
    (data & rest & e & f1 & c1 & Hrd & Hsplit & Hup1 & Hse & Hne & Hnil & Ho1 & Ha1).
  rewrite Hrd.
  destruct p as [|b p'].
  - destruct (Hnil eq_refl) as [-> ->].
    exists f1. change (len (@nil byte)) with 0 in *. split; [| lia].
    unfold reported. destruct (stream_end f); reflexivity.
  - destruct Hne as [Hlen ->]; [discriminate |].
    assert (Hlp : len (b :: p') = len data + len rest) by (rewrite Hsplit; apply len_app).
    destruct (IH f1 rest (acc ++ data) Hup1 Ha1 Hbuf) as (f' & Hrun & Ho'); try lia.
    { unfold len in *. lia. }
    exists f'. rewrite Hrun, <- app_assoc, <- Hsplit, Hse. split; [reflexivity | lia].
Qed.

(** X19.  A fault of the store reaches the caller as it is.  Over a blob
    whose stream breaks with the error [x] after its bytes, a new handle
    read to the end delivers all the bytes and then reports [x]; and a
    seek from the start to a target beyond the bytes stops after them,
    returns their number as the offset and reports [x], not [io.EOF]. *)
Theorem store_fault_reaches_the_caller
    (e : TreeEntry) (i : FileInfo) (b : Blob) (x : error) (buf noff : Z) :
  entry_blob e = Ok b -> blob_fault b = Some x -> x <> EOF ->
  len (blob_bytes b) <= int64_max -> 1 <= buf ->
  len (blob_bytes b) < noff <= int64_max ->
  exists f1 f2 cs,
    read_all (S (List.length (blob_bytes b))) buf (fresh e i) [] =
      Some (blob_bytes b, Some x, f1) /\
    ghfsFile_Seek noff SEEK_SET (fresh e i) =
      Some (len (blob_bytes b), Some x, f2, cs) /\
    off f2 = len (blob_bytes b).
Proof.
  intros Hb Hf Hx Hmax Hbuf Hn.
  pose proof (len_nonneg (blob_bytes b)) as Hl0.
  assert (Hup : upcoming (fresh e i) = Ok (blob_bytes b)).
  { unfold upcoming, fresh; simpl. rewrite Hb. reflexivity. }
  assert (Hend : stream_end (fresh e i) = x).
  { unfold stream_end, fresh; simpl. rewrite Hb, Hf. reflexivity. }
  assert (Hrep : reported x = Some x) by (destruct x; [congruence | reflexivity ..]).
  destruct (read_all_to_the_end (S (List.length (blob_bytes b))) buf (fresh e i)
              (blob_bytes b) [] Hup eq_refl Hbuf) as (f1 & Hall & _);
    simpl; try lia.
  destruct (Discard_ReadFrom_runs_dry (S (Z.to_nat noff)) noff (fresh e i) 0 []
              (blob_bytes b) Hup eq_refl) as (f2 & cs & Hrun & _ & Ho2 & _);
    simpl; try lia.
  rewrite Hend, Hrep in Hall, Hrun.
  change (off (fresh e i)) with 0 in Ho2. rewrite Z.add_0_l in Ho2, Hrun.
  exists f1, f2, cs. split; [exact Hall |]. split; [| exact Ho2].
  change (ghfsFile_Seek noff SEEK_SET (fresh e i)) with (Seek_to noff (fresh e i)).
  unfold Seek_to.
  change (with_atEnd (fresh e i) false) with (fresh e i).
  change (off (fresh e i)) with 0.
  assert (H1 : (noff <? 0) = false) by (apply Z.ltb_ge; lia).
  rewrite H1.
  assert (H2 : sub64 noff 0 = noff).
  { unfold sub64. rewrite Z.sub_0_r. apply wrap64_id. int64_lia. }
  rewrite H2. unfold CopyN_Discard. rewrite Hrun.
  assert (H3 : (len (blob_bytes b) =? noff) = false) by (apply Z.eqb_neq; lia).
  rewrite H3, Ho2. reflexivity.
Qed.

Lemma store_fault_reaches_the_caller_witness :
  exists f1 f2 cs,
    read_all 2 4 (fresh damaged (entryFileInfo damaged)) [] =
      Some ([x61], Some (LibError "unexpected end of object"), f1) /\
    ghfsFile_Seek 3 SEEK_SET (fresh damaged (entryFileInfo damaged)) =
      Some (1, Some (LibError "unexpected end of object"), f2, cs) /\
    off f2 = 1.
Proof.
  apply (store_fault_reaches_the_caller damaged (entryFileInfo damaged)
           {| blob_bytes := [x61]; blob_chunk := 3;
              blob_fault := Some (LibError "unexpected end of object");
                         blob_closing := fun _ => None |}
           (LibError "unexpected end of object") 4 3).
  - reflexivity.
  - reflexivity.
  - discriminate.
  - unfold len. simpl. int64_lia.
  - lia.
  - unfold len. simpl. int64_lia.
Defined.

(** X20.  When the store refuses to open the blob, an unopened handle
    stays as it is: a [Read] returns no bytes and the store's error, and
    a seek from the start to a positive target returns offset 0 and the
    store's error, after a single attempt to open the blob; the handle
    keeps no stream and offset 0, so that a later call tries again. *)
Theorem unreadable_blob_fails_each_call
    (f : ghfsFile) (x : error) (buf noff : Z) :
  entry_blob (entry f) = Err x -> rc f = None -> off f = 0 ->
  0 < noff <= int64_max ->
  ghfsFile_Read buf f = ([], Some x, f, [CallBlobData]) /\
  ghfsFile_Seek noff SEEK_SET f =
    Some (0, Some x, with_atEnd f false, [CallBlobData]).
Proof.
  intros Hb Hrc Hoff Hn.
  assert (Hread : forall q g, entry g = entry f -> rc g = None ->
            ghfsFile_Read q g = ([], Some x, g, [CallBlobData])).
  { intros q g He Hr. unfold ghfsFile_Read, Blob_Data. rewrite Hr, He, Hb.
    reflexivity. }
  split; [apply Hread; auto |].
  change (ghfsFile_Seek noff SEEK_SET f) with (Seek_to noff f).
  unfold Seek_to. cbn [off with_atEnd]. rewrite Hoff.
  assert (H1 : (noff <? 0) = false) by (apply Z.ltb_ge; lia).
  rewrite H1.
  assert (H2 : sub64 noff 0 = noff).
  { unfold sub64. rewrite Z.sub_0_r. apply wrap64_id. int64_lia. }
  rewrite H2. unfold CopyN_Discard. cbn [Discard_ReadFrom].
  unfold LimitedReader_Read.
  assert (H3 : (noff <=? 0) = false) by (apply Z.leb_gt; lia).
  rewrite H3, Hread by (simpl; auto).
  change (len (@nil byte)) with 0. cbn [Z.add app].
  assert (H4 : (0 =? noff) = false) by (apply Z.eqb_neq; lia).
  assert (H5 : (0 <? noff) = true) by (apply Z.ltb_lt; lia).
  destruct x; rewrite H4, ?H5; cbn [off with_atEnd]; rewrite Hoff; reflexivity.
Qed.

Lemma unreadable_blob_fails_each_call_witness :
  ghfsFile_Read 4 (fresh dir (entryFileInfo dir))
    = ([], Some (LibError "not a blob"), fresh dir (entryFileInfo dir), [CallBlobData]) /\
  ghfsFile_Seek 2 SEEK_SET (fresh dir (entryFileInfo dir)) =
    Some (0, Some (LibError "not a blob"),
          with_atEnd (fresh dir (entryFileInfo dir)) false, [CallBlobData]).
Proof.
  apply (unreadable_blob_fails_each_call (fresh dir (entryFileInfo dir))
           (LibError "not a blob") 4 2).
  - reflexivity.
  - reflexivity.
  - reflexivity.
  - int64_lia.
Defined.

(** * Seeking on any handle *)

(** A [Read] that finds bytes upcoming delivers some of them, whatever
    the state of the blob beyond them. *)
Lemma Read_some_bytes (buf : Z) (f : ghfsFile) (p : list byte) :
  upcoming f = Ok p -> atEnd f = false -> p <> [] -> 1 <= buf ->
  0 <= off f -> off f + buf <= int64_max ->
  exists data rest f' cs,
    ghfsFile_Read buf f = (data, None, f', cs) /\
    p = data ++ rest /\ upcoming f' = Ok rest /\ stream_end f' = stream_end f /\
    1 <= len data <= buf /\ off f' = off f + len data /\ atEnd f' = false.
Proof.
  intros Hup Hend Hne Hbuf Hoff Hmax.
  destruct (ghfsFile_Read_cases buf f) as [(x & Hn & Hb & Hr) | (r & c0 & Hs & Hr)].
  - unfold upcoming in Hup. rewrite Hn, Hb in Hup. discriminate.
  - destruct (stream_of_end f r p Hs Hup) as [Hpend Hre].
    rewrite Hr.
    destruct (Read_opened_spec buf f r c0)
      as [(Ha & Ho) | [(Ha & Hp & Ho) | (Ha & Hp & Ho)]];
      [congruence | congruence |]; cbv zeta in Ho; rewrite Ho; clear Ho.
    set (k := Z.to_nat (Z.min buf (Z.pos (chunk r)))).
    exists (firstn k (pending r)), (skipn k (pending r)).
    eexists; eexists. split; [reflexivity |].
    pose proof (len_pos _ Hp) as Hpos.
    assert (Hlen : 1 <= len (firstn k (pending r)) <= buf).
    { rewrite len_firstn. unfold k. lia. }
    rewrite <- Hre. unfold upcoming, stream_end, rc_end, add64; simpl.
    rewrite wrap64_id by int64_lia.
    repeat split; auto; try lia.
    rewrite firstn_skipn. auto.
Qed.

(** [Discard.ReadFrom] allowed no more bytes than are upcoming consumes
    exactly the bytes allowed and reports nothing. *)
Lemma Discard_ReadFrom_within (fuel : nat) :
  forall (N : Z) (f : ghfsFile) (n : Z) (cs : list StoreCall) (p : list byte),
    upcoming f = Ok p -> atEnd f = false ->
    0 <= off f -> off f + N <= int64_max ->
    0 <= N <= len p -> (Z.to_nat N < fuel)%nat ->
    exists f' cs',
      Discard_ReadFrom fuel N f n cs = Some (n + N, None, f', cs') /\
      off f' = off f + N.
Proof.
  induction fuel as [|fuel IH];
    intros N f n cs p Hup Hend Hoff Hmax HN Hfuel; [lia |].
  simpl. unfold LimitedReader_Read.
  destruct (N <=? 0) eqn:EN.
  - apply Z.leb_le in EN. assert (N = 0) by lia. subst N.
    exists f, (cs ++ []). change (len (@nil byte)) with 0.
    split; [reflexivity | lia].
  - apply Z.leb_gt in EN.
    set (q := if blackHoleSize >? N then N else blackHoleSize).
    assert (Hq : 1 <= q <= N).
    { unfold q, blackHoleSize. rewrite Z.gtb_ltb.
      destruct (N <? 8192) eqn:E; [lia |]. apply Z.ltb_ge in E. lia. }
    assert (Hne : p <> []).
    { intros ->. change (len (@nil byte)) with 0 in HN. lia. }
    destruct (Read_some_bytes q f p Hup Hend Hne) as
      (data & rest & f1 & c1 & Hrd & Hsplit & Hup1 & _ & Hlen & Ho1 & Ha1); try lia.
    rewrite Hrd.
    assert (Hlp : len p = len data + len rest) by (rewrite Hsplit; apply len_app).
    destruct (IH (N - len data) f1 (n + len data) (cs ++ c1) rest Hup1 Ha1)
      as (f' & cs' & Hrun & Ho'); try lia.
    exists f', cs'. rewrite Hrun.
    replace (n + len data + (N - len data)) with (n + N) by lia.
    split; [reflexivity | lia].
Qed.

Lemma reported_back (x : error) :
  match reported x with
  | None => Some EOF
  | Some y => Some y
  end = Some x.
Proof. destruct x; reflexivity. Qed.

(** [io.CopyN] into [Discard], on any handle that is not at its end: it
    consumes the bytes asked for when the handle can still deliver that
    many, and otherwise all the handle can deliver, reporting what the
    stream reports at its end, or the refusal of the store to open the
    blob. *)
Lemma CopyN_Discard_reach (f : ghfsFile) (N : Z) :
  atEnd f = false -> 0 <= off f -> 0 <= N -> off f + N <= int64_max ->
  exists f' cs,
    CopyN_Discard f N =
      Some (Z.min N (len (remaining f)),
            (if N <=? len (remaining f) then None else Some (stream_end f)),
            f', cs) /\
    off f' = off f + Z.min N (len (remaining f)).
Proof.
  intros Hend Hoff HN Hmax. unfold remaining.
  destruct (upcoming f) as [p|x] eqn:Hup.
  - pose proof (len_nonneg p) as Hp0.
    destruct (N <=? len p) eqn:Ele.
    + apply Z.leb_le in Ele.
      destruct (Discard_ReadFrom_within (S (Z.to_nat N)) N f 0 [] p Hup Hend)
        as (f' & cs' & Hrun & Ho'); try lia.
      unfold CopyN_Discard. rewrite Hrun. simpl. rewrite Z.eqb_refl.
      exists f', cs'. replace (Z.min N (len p)) with N by lia. split; auto.
    + apply Z.leb_gt in Ele.
      destruct (Discard_ReadFrom_runs_dry (S (Z.to_nat N)) N f 0 [] p Hup Hend)
        as (f' & cs' & Hrun & _ & Ho' & _); try lia.
      unfold CopyN_Discard. rewrite Hrun. simpl.
      assert (E : (len p =? N) = false) by (apply Z.eqb_neq; lia).
      assert (E' : (len p <? N) = true) by (apply Z.ltb_lt; lia).
      rewrite E. replace (Z.min N (len p)) with (len p) by lia.
      exists f', cs'. split; [| exact Ho'].
      pose proof (reported_back (stream_end f)) as Hr.
      destruct (reported (stream_end f)) as [y|]; [| rewrite E'];
        rewrite <- Hr; reflexivity.
  - assert (Hrc : rc f = None /\ entry_blob (entry f) = Err x).
    { unfold upcoming in Hup. destruct (rc f); [discriminate |].
      destruct (entry_blob (entry f)); [discriminate |]. inversion Hup. auto. }
    destruct Hrc as [Hrc Hb].
    assert (Hse : stream_end f = x).
    { unfold stream_end. rewrite Hrc, Hb. reflexivity. }
    change (len (@nil byte)) with 0.
    destruct (N <=? 0) eqn:EN.
    + apply Z.leb_le in EN. assert (N = 0) by lia. subst N.
      rewrite CopyN_Discard_nothing. exists f, []. split; [reflexivity | simpl; lia].
    + assert (Hread : ghfsFile_Read (if blackHoleSize >? N then N else blackHoleSize) f
                      = ([], Some x, f, [CallBlobData])).
      { unfold ghfsFile_Read, Blob_Data. rewrite Hrc, Hb. reflexivity. }
      unfold CopyN_Discard. cbn [Discard_ReadFrom]. unfold LimitedReader_Read.
      rewrite EN, Hread. change (len (@nil byte)) with 0. cbn [Z.add app].
      apply Z.leb_gt in EN.
      assert (H4 : (0 =? N) = false) by (apply Z.eqb_neq; lia).
      assert (H5 : (0 <? N) = true) by (apply Z.ltb_lt; lia).
      replace (Z.min N 0) with 0 by lia. rewrite Hse.
      exists f, [CallBlobData].
      split; [| lia].
      destruct x; rewrite H4, ?H5; reflexivity.
Qed.

(** The second half of [Seek] on any handle, for a target that is not
    negative: the handle is closed first when the target lies before its
    offset, and from there the stream is read up to the target, or up to
    its end when that comes first; in the second case the call reports
    what the stream reports at its end. *)
Lemma Seek_to_reach (noff : Z) (f : ghfsFile) :
  0 <= off f <= int64_max -> 0 <= noff <= int64_max ->
  exists f' cs,
    Seek_to noff f =
      Some (Z.min noff (reach (seek_from noff f)),
            (if noff <=? reach (seek_from noff f) then None
             else Some (stream_end (seek_from noff f))),
            f', cs) /\
    off f' = Z.min noff (reach (seek_from noff f)).
Proof.
  intros Hoff Hn. unfold Seek_to, seek_from, reach.
  assert (Hneg : (noff <? 0) = false) by (apply Z.ltb_ge; lia).
  rewrite Hneg. cbn [off with_atEnd].
  destruct (noff <? off f) eqn:Eback.
  - rewrite Close_spec. cbn [entry fi rc atEnd with_atEnd]. fold (unopened f).
    destruct (CopyN_Discard_reach (unopened f) noff eq_refl)
      as (f' & cs & Hrun & Ho); simpl; try lia.
    rewrite Hrun. simpl in Ho. exists f'. eexists.
    split; [reflexivity | exact Ho].
  - apply Z.ltb_ge in Eback.
    assert (Hsub : sub64 noff (off f) = noff - off f).
    { unfold sub64. apply wrap64_id. int64_lia. }
    rewrite Hsub.
    destruct (CopyN_Discard_reach (with_atEnd f false) (noff - off f) eq_refl)
      as (f' & cs & Hrun & Ho); simpl; try lia.
    rewrite Hrun. simpl in Ho.
    change (off (with_atEnd f false)) with (off f).
    set (l := len (remaining (with_atEnd f false))) in *.
    assert (Hat : off f' = Z.min noff (off f + l)) by lia.
    assert (Herr : (noff - off f <=? l) = (noff <=? off f + l)).
    { destruct (noff <=? off f + l) eqn:E.
      - apply Z.leb_le in E. apply Z.leb_le. lia.
      - apply Z.leb_gt in E. apply Z.leb_gt. lia. }
    rewrite Herr, Hat. exists f', cs. split; [reflexivity | exact Hat].
Qed.




(** C10.  Once a handle is at its end, [Seek(offset, SEEK_CUR)] is
    [Seek(offset, SEEK_END)]: its target is the 64-bit sum
    [size + offset], whatever [off] is, and that is where the call goes.
    With offset 0 it returns the size and leaves the handle as it is.
    With any other offset a negative [size + offset] fails with the
    invalid-offset error; otherwise the handle reads on, from the start
    when [size + offset] lies before [off], and the offset returned and
    left in the handle is [size + offset], or the end of the stream when
    that comes first, with what the stream reports there as the error.
    On a handle over a readable, undamaged blob whose stream stands at
    [off], a target inside the data is reached without an error. *)
Theorem Seek_current_is_end_relative_at_end (f : ghfsFile) (offset : Z) :
  atEnd f = true ->
  0 <= off f <= int64_max -> 0 <= Size (entry f) <= int64_max ->
  in_int64 offset ->
  let noff := add64 (Size (entry f)) offset in
  seek_target f offset SEEK_CUR = Some noff /\
  ghfsFile_Seek offset SEEK_CUR f = ghfsFile_Seek offset SEEK_END f /\
  (offset = 0 ->
   ghfsFile_Seek offset SEEK_CUR f = Some (Size (entry f), None, f, [])) /\
  (offset <> 0 -> noff < 0 ->
   ghfsFile_Seek offset SEEK_CUR f =
   Some (0, Some (ErrorString "Invalid offset"), with_atEnd f false, [])) /\
  (offset <> 0 -> 0 <= noff ->
   exists f' cs,
     ghfsFile_Seek offset SEEK_CUR f =
       Some (Z.min noff (reach (seek_from noff f)),
             (if noff <=? reach (seek_from noff f) then None
              else Some (stream_end (seek_from noff f))),
             f', cs) /\
     off f' = Z.min noff (reach (seek_from noff f)) /\ atEnd f' = false) /\
  (forall data : list byte,
     positioned data f -> offset <> 0 -> 0 <= noff <= len data ->
     exists f' cs,
       ghfsFile_Seek offset SEEK_CUR f = Some (noff, None, f', cs) /\
       off f' = noff /\ atEnd f' = false /\ positioned data f').
Proof.
  intros Ha Hoff Hsize Hofs noff.
  assert (Hin : in_int64 noff) by apply wrap64_range.
  assert (Hcur : ghfsFile_Seek offset SEEK_CUR f = ghfsFile_Seek offset SEEK_END f).
  { unfold ghfsFile_Seek. rewrite Ha. reflexivity. }
  assert (Hnz : offset <> 0 -> ghfsFile_Seek offset SEEK_CUR f = Seek_to noff f).
  { intros Hz. unfold ghfsFile_Seek. rewrite Ha. simpl.
    apply Z.eqb_neq in Hz. rewrite Hz. reflexivity. }
  split; [unfold seek_target; rewrite Ha; reflexivity |].
  split; [exact Hcur |]. split; [| split; [| split]].
  - intros ->. unfold ghfsFile_Seek. rewrite Ha. simpl.
    rewrite (with_atEnd_same f true Ha). reflexivity.
  - intros Hz Hneg. rewrite (Hnz Hz). unfold Seek_to.
    apply Z.ltb_lt in Hneg. rewrite Hneg. reflexivity.
  - intros Hz Hpos. rewrite (Hnz Hz).
    assert (Hr : 0 <= noff <= int64_max) by (unfold in_int64 in Hin; lia).
    destruct (Seek_to_returns noff f Hoff Hr)
      as (n & e & f' & cs & Hrun & _ & _ & _ & _ & Hat).
    destruct (Seek_to_reach noff f Hoff Hr) as (f2 & cs2 & Hrun2 & Ho2).
    rewrite Hrun in Hrun2. inversion Hrun2. subst f2 cs2.
    exists f', cs. rewrite Hrun, Hrun2. auto.
  - intros data Hp Hz Hn. rewrite (Hnz Hz).
    assert (Hr : 0 <= noff <= int64_max) by (unfold in_int64 in Hin; lia).
    destruct (Seek_to_positioned data noff f Hp Hr)
      as (f' & cs & Hrun & Hp' & Ho' & Ha' & _).
    assert (Hle : (noff <=? len data) = true) by (apply Z.leb_le; lia).
    rewrite Hle in Hrun. replace (Z.min noff (len data)) with noff in * by lia.
    exists f', cs. auto.
Qed.

(** The handle for [/a.txt] right after [Seek(0, SEEK_END)]: its offset
    is still 0, and [Seek(-1, SEEK_CUR)] goes to 3. *)
Lemma Seek_current_is_end_relative_at_end_witness :
  off a_at_end = 0 /\ Size (entry a_at_end) = 4 /\
  exists f' cs,
    ghfsFile_Seek (-1) SEEK_CUR a_at_end = Some (3, None, f', cs) /\
    off f' = 3 /\ atEnd f' = false /\ positioned abcd f'.
Proof.
  split; [reflexivity |]. split; [reflexivity |].
  assert (H1 : atEnd a_at_end = true) by reflexivity.
  assert (H2 : 0 <= off a_at_end <= int64_max) by (simpl; int64_lia).
  assert (H3 : 0 <= Size (entry a_at_end) <= int64_max) by (simpl; int64_lia).
  assert (H4 : in_int64 (-1)) by int64_lia.
  apply (proj2 (proj2 (proj2 (proj2 (proj2
           (Seek_current_is_end_relative_at_end a_at_end (-1) H1 H2 H3 H4))))) abcd).
  - concrete_positioned.
  - discriminate.
  - vm_compute. split; discriminate.
Defined.
